(** * Henvdall: parser, validator, sync and audit

    A shallow embedding of [src/henvdall/parser.py], [validator.py],
    [sync.py] and [audit.py], followed by the properties of the
    specification that were checked against it.

    Text.  A Python [str] is modelled as a list of characters whose code
    points are below 256 (the Latin-1 range), so that a Rocq [ascii] is one
    code point.  Every character class below is written for that range.

    Regular expressions.  The program uses [re] with a few syntactic forms
    only: character classes, concatenation, repetition of one character
    class (greedy or lazy), an optional sub-pattern, capture groups and the
    anchors [^] and [$].  The matcher below is a backtracking matcher in
    continuation-passing style for exactly that fragment. *)

From Stdlib Require Import List Ascii String Bool Arith Lia.
Import ListNotations.

Open Scope string_scope.
Open Scope list_scope.
Open Scope bool_scope.
Open Scope nat_scope.

(** ** Text *)

Definition str := list ascii.

Coercion list_ascii_of_string : string >-> list.

Definition code (c : ascii) : nat := nat_of_ascii c.

Definition between (lo hi : nat) (c : ascii) : bool :=
  (lo <=? code c) && (code c <=? hi).

Definition is_char (a c : ascii) : bool := Ascii.eqb c a.

Definition LF : ascii := ascii_of_nat 10.
Definition CR : ascii := ascii_of_nat 13.
Definition TAB : ascii := ascii_of_nat 9.

Fixpoint str_eqb (a b : str) : bool :=
  match a, b with
  | [], [] => true
  | x :: a', y :: b' => Ascii.eqb x y && str_eqb a' b'
  | _, _ => false
  end.

(** [str.isspace] for one character, which is also the class [\s] of [re]
    on [str] patterns: TAB..CR, FS..US, space, NEL and NBSP. *)
Definition is_space (c : ascii) : bool :=
  between 9 13 c || between 28 32 c || (code c =? 133) || (code c =? 160).

Definition is_digit (c : ascii) : bool := between 48 57 c.
Definition is_upper (c : ascii) : bool := between 65 90 c.
Definition is_lower (c : ascii) : bool := between 97 122 c.
Definition is_alpha (c : ascii) : bool := is_upper c || is_lower c.

(** The class [\w] of [re] on [str] patterns: [str.isalnum] or underscore.
    Below 256 the alphanumerics are the ASCII ones, the ordinal indicators,
    the superscript digits, the micro sign, the vulgar fractions and the
    accented letters. *)
Definition is_word (c : ascii) : bool :=
  is_digit c || is_alpha c || is_char "_" c
  || (code c =? 170) || (code c =? 178) || (code c =? 179) || (code c =? 181)
  || (code c =? 185) || (code c =? 186) || between 188 190 c
  || between 192 214 c || between 216 246 c || between 248 255 c.

(** [str.lower] on one character: the ASCII capitals and the accented
    capitals (all of 192..222 but the multiplication sign) move up by 32. *)
Definition lower_char (c : ascii) : ascii :=
  if is_upper c || (between 192 222 c && negb (code c =? 215))
  then ascii_of_nat (code c + 32) else c.

Definition py_lower (s : str) : str := map lower_char s.

Fixpoint lstrip (p : ascii -> bool) (s : str) : str :=
  match s with
  | [] => []
  | x :: s' => if p x then lstrip p s' else s
  end.

Fixpoint rstrip (p : ascii -> bool) (s : str) : str :=
  match s with
  | [] => []
  | x :: s' =>
      match rstrip p s' with
      | [] => if p x then [] else [x]
      | t => x :: t
      end
  end.

(** [s.strip()] *)
Definition py_strip (s : str) : str := rstrip is_space (lstrip is_space s).

(** [c in s] for a one-character [c] *)
Definition contains (c : ascii) (s : str) : bool := existsb (is_char c) s.

(** [s.startswith(c)] for a one-character [c] *)
Definition startswith (c : ascii) (s : str) : bool :=
  match s with
  | x :: _ => is_char c x
  | [] => false
  end.

(** ** Regular expressions *)

Inductive regex : Type :=
| Eps                                             (* the empty pattern *)
| Chr (c : ascii -> bool)                         (* one character of a class *)
| Cat (r1 r2 : regex)                             (* r1 r2 *)
| Rep (greedy : bool) (min : nat) (c : ascii -> bool)
                                                  (* c*, c+, c*? *)
| Opt (r : regex)                                 (* (?:r)? *)
| Grp (n : nat) (r : regex)                       (* capture group n *)
| Bos                                             (* ^ *)
| Eos.                                            (* $ *)

Declare Scope regex_scope.
Delimit Scope regex_scope with re.
Bind Scope regex_scope with regex.
Infix ";;" := Cat (at level 61, right associativity) : regex_scope.

(** Captured groups; a group that took no part in the match is [None]. *)
Definition groups := nat -> option str.

Definition no_groups : groups := fun _ => None.

Definition set_group (n : nat) (v : str) (g : groups) : groups :=
  fun m => if m =? n then Some v else g m.

(** The rest of the match: position reached, text left, groups so far. *)
Definition cont := nat -> str -> groups -> option groups.

Definition orelse (a b : option groups) : option groups :=
  match a with
  | Some r => Some r
  | None => b
  end.

(** Greedy repetition: take as many characters of the class as there are,
    then give them back one at a time, never going below [min]. *)
Fixpoint rep_greedy (c : ascii -> bool) (min pos : nat) (s : str)
    (g : groups) (k : cont) {struct s} : option groups :=
  let stop := if min =? 0 then k pos s g else None in
  match s with
  | x :: s' =>
      if c x then orelse (rep_greedy c (pred min) (S pos) s' g k) stop
      else stop
  | [] => stop
  end.

(** Lazy repetition: try the rest first, take one more character only when
    the rest fails. *)
Fixpoint rep_lazy (c : ascii -> bool) (min pos : nat) (s : str)
    (g : groups) (k : cont) {struct s} : option groups :=
  let more :=
    match s with
    | x :: s' => if c x then rep_lazy c (pred min) (S pos) s' g k else None
    | [] => None
    end in
  if min =? 0 then orelse (k pos s g) more else more.

(** [$] without [re.MULTILINE]: at the end of the text, or just before a
    line feed that is the last character. *)
Definition at_end (s : str) : bool :=
  match s with
  | [] => true
  | [x] => is_char LF x
  | _ => false
  end.

Fixpoint rmatch (r : regex) (pos : nat) (s : str) (g : groups) (k : cont)
    {struct r} : option groups :=
  match r with
  | Eps => k pos s g
  | Chr c =>
      match s with
      | x :: s' => if c x then k (S pos) s' g else None
      | [] => None
      end
  | Cat r1 r2 =>
      rmatch r1 pos s g (fun pos' s' g' => rmatch r2 pos' s' g' k)
  | Rep true min c => rep_greedy c min pos s g k
  | Rep false min c => rep_lazy c min pos s g k
  | Opt r1 => orelse (rmatch r1 pos s g k) (k pos s g)
  | Grp n r1 =>
      rmatch r1 pos s g
        (fun pos' s' g' => k pos' s' (set_group n (firstn (pos' - pos) s) g'))
  | Bos => if pos =? 0 then k pos s g else None
  | Eos => if at_end s then k pos s g else None
  end.

Definition accept : cont := fun _ _ g => Some g.

(** [pattern.match(s)]: anchored at the start, free at the end. *)
Definition re_match (r : regex) (s : str) : option groups :=
  rmatch r 0 s no_groups accept.

(** [re.search]: the first start position, left to right, with a match. *)
Fixpoint search_from (r : regex) (pos : nat) (s : str) : option groups :=
  orelse (rmatch r pos s no_groups accept)
    (match s with
     | _ :: s' => search_from r (S pos) s'
     | [] => None
     end).

Definition re_search (r : regex) (s : str) : option groups :=
  search_from r 0 s.

Definition found (m : option groups) : bool :=
  match m with
  | Some _ => true
  | None => false
  end.

(** A literal, character by character. *)
Definition lit (w : str) : regex :=
  fold_right (fun a r => Cat (Chr (is_char a)) r) Eps w.

(** One literal character under [(?i)].  For an ASCII letter the only
    characters below 256 with the same case folding are its two ASCII
    forms; a character that is not a letter matches itself only. *)
Definition fold_case (c : ascii) : ascii :=
  if is_upper c then ascii_of_nat (code c + 32) else c.

Definition is_char_i (a c : ascii) : bool := Ascii.eqb (fold_case c) (fold_case a).

Definition lit_i (w : str) : regex :=
  fold_right (fun a r => Cat (Chr (is_char_i a)) r) Eps w.

(** [.] without [re.DOTALL] *)
Definition dot (c : ascii) : bool := negb (is_char LF c).

(** [c*], [c+] and [c*?] *)
Definition star (c : ascii -> bool) : regex := Rep true 0 c.
Definition plus (c : ascii -> bool) : regex := Rep true 1 c.
Definition star_lazy (c : ascii -> bool) : regex := Rep false 0 c.

(** ** Dictionaries

    A Python [dict] keeps its keys in insertion order and assigning to a key
    that is already there keeps its place: an association list with distinct
    keys. *)

Definition dict (V : Type) : Type := list (str * V).

Fixpoint dict_set {V : Type} (k : str) (v : V) (d : dict V) : dict V :=
  match d with
  | [] => [(k, v)]
  | (k', v') :: d' =>
      if str_eqb k' k then (k', v) :: d' else (k', v') :: dict_set k v d'
  end.

Fixpoint dict_get {V : Type} (k : str) (d : dict V) : option V :=
  match d with
  | [] => None
  | (k', v') :: d' => if str_eqb k' k then Some v' else dict_get k d'
  end.

Definition dict_mem {V : Type} (k : str) (d : dict V) : bool :=
  match dict_get k d with
  | Some _ => true
  | None => false
  end.

Definition dict_keys {V : Type} (d : dict V) : list str := map fst d.

(** ** parser.py *)

Record EnvEntry : Type := mkEnvEntry {
  key : str;
  value : str;
  comment : option str
}.

Definition DQUOTE : ascii := ascii_of_nat 34.
Definition SQUOTE : ascii := "'"%char.

Definition ident_start (c : ascii) : bool := is_alpha c || is_char "_" c.

Definition ident_char (c : ascii) : bool :=
  is_alpha c || is_digit c || is_char "_" c.

Definition not_hash (c : ascii) : bool := negb (is_char "#" c).

(** The line pattern, one token after the other:
    ^ \s* ( [A-Za-z_] [A-Za-z0-9_]* ) \s* = \s* ( [^#]*? )
    (?: \s* # \s* ( .* ) )? $ *)
Definition ENV_LINE_PATTERN : regex :=
  (Bos ;; star is_space ;;
   Grp 1 (Chr ident_start ;; star ident_char) ;;
   star is_space ;; Chr (is_char "=") ;; star is_space ;;
   Grp 2 (star_lazy not_hash) ;;
   Opt (star is_space ;; Chr (is_char "#") ;; star is_space ;;
        Grp 3 (star dot)) ;;
   Eos)%re.

(** [match.group(n)] for a group that takes part in every match *)
Definition group (m : groups) (n : nat) : str :=
  match m n with
  | Some v => v
  | None => []
  end.

Definition unquote_value (value : str) : str :=
  if 2 <=? List.length value then
    if (is_char DQUOTE (hd " "%char value) && is_char DQUOTE (last value " "%char))
       || (is_char SQUOTE (hd " "%char value) && is_char SQUOTE (last value " "%char))
    then removelast (tl value)
    else value
  else value.

(** The test of [format_entry]: a space, or one of [#], [$] and the
    backslash, is in the value. *)
Definition needs_quoting (value : str) : bool :=
  contains " " value
  || existsb (fun char => contains char value) ["#"; "$"; "\"]%char.

Definition format_entry (key value : str) : str :=
  let value :=
    if needs_quoting value then DQUOTE :: value ++ [DQUOTE] else value in
  key ++ "=" ++ value.

(** The body of the loop of [parse_file], on one line as the file object
    yields it. *)
Definition parse_line (entries : dict EnvEntry) (line : str) : dict EnvEntry :=
  let line := rstrip (is_char LF) line in
  match py_strip line with
  | [] => entries
  | stripped =>
      if startswith "#" stripped then entries
      else
        match re_match ENV_LINE_PATTERN line with
        | Some m =>
            let key := group m 1 in
            let value := py_strip (group m 2) in
            let comment :=
              match m 3 with
              | Some (x :: c) => Some (py_strip (x :: c))
              | _ => None
              end in
            let value := unquote_value value in
            dict_set key (mkEnvEntry key value comment) entries
        | None => entries
        end
  end.

(** Text mode with universal newlines: [\r\n] and a lone [\r] are read as
    [\n]. *)
Fixpoint universal_newlines (s : str) : str :=
  match s with
  | [] => []
  | x :: s' =>
      if is_char CR x then
        match s' with
        | y :: _ => if is_char LF y then universal_newlines s'
                    else LF :: universal_newlines s'
        | [] => [LF]
        end
      else x :: universal_newlines s'
  end.

(** The lines a file object yields, each with its line feed. *)
Fixpoint file_lines (s : str) : list str :=
  match s with
  | [] => []
  | x :: s' =>
      if is_char LF x then [x] :: file_lines s'
      else
        match file_lines s' with
        | [] => [[x]]
        | l :: ls => (x :: l) :: ls
        end
  end.

(** The text of a file that exists. *)
Definition parse_text (text : str) : dict EnvEntry :=
  fold_left parse_line (file_lines (universal_newlines text)) [].

(** [parse_file]; a path that does not exist reads as [None]. *)
Definition parse_file (file : option str) : dict EnvEntry :=
  match file with
  | None => []
  | Some text => parse_text text
  end.

(** ** validator.py *)

Record ValidationResult : Type := mkValidationResult {
  is_valid : bool;
  error_message : option str
}.

Definition valid : ValidationResult := mkValidationResult true None.

Definition invalid (msg : str) : ValidationResult :=
  mkValidationResult false (Some msg).

(** The white space [int] strips on both sides: the ASCII white space and,
    of the other space characters, NEL and NBSP (the separators FS..US are
    not stripped). *)
Definition int_space (c : ascii) : bool :=
  between 9 13 c || is_char " " c || (code c =? 133) || (code c =? 160).

(** Decimal digits, with single underscores between digits. *)
Fixpoint int_digits (after_digit : bool) (s : str) : bool :=
  match s with
  | [] => after_digit
  | x :: s' =>
      if is_digit x then int_digits true s'
      else if is_char "_" x then after_digit && int_digits false s'
      else false
  end.

Definition int_sign (c : ascii) : bool := is_char "+" c || is_char "-" c.

(** [sys.get_int_max_str_digits()], as the interpreter starts: [int] raises
    [ValueError] for a text with more decimal digits than this.  The digits
    are counted, leading zeros too; the sign, the underscores and the white
    space around are not. *)
Definition int_max_str_digits : nat := 4300.

(** Whether [int(value)] returns rather than raising [ValueError]. *)
Definition int_parses (value : str) : bool :=
  match rstrip int_space (lstrip int_space value) with
  | x :: s' =>
      (if int_sign x then int_digits false s' else int_digits false (x :: s'))
      && (List.length (filter is_digit (x :: s')) <=? int_max_str_digits)
  | [] => false
  end.

Definition validate_int (value : str) : ValidationResult :=
  if int_parses value then valid
  else invalid ("'" ++ value ++ "' is not a valid integer").

Section UrlParse.

(** [urllib.parse.urlparse] is library code: either it raises, with the
    text of the exception, or it returns a result of which the program
    reads [scheme] and [netloc]. *)
Variable urlparse : str -> str + (str * str).

Definition nonempty (s : str) : bool :=
  match s with
  | [] => false
  | _ :: _ => true
  end.

Definition validate_url (value : str) : ValidationResult :=
  match urlparse value with
  | inr (scheme, netloc) =>
      if forallb nonempty [scheme; netloc] then valid
      else invalid ("'" ++ value
                    ++ "' is not a valid URL (must include scheme and domain)")
  | inl e => invalid ("'" ++ value ++ "' is not a valid URL: " ++ e)
  end.

Definition validate_value (value : str) (validation_type : option str)
  : ValidationResult :=
  match validation_type with
  | None | Some [] => valid
  | Some validation_type =>
      let validation_type := py_strip (py_lower validation_type) in
      if str_eqb validation_type "int" then validate_int value
      else if str_eqb validation_type "url" then validate_url value
      else valid
  end.

End UrlParse.

Definition us_or_space (c : ascii) : bool := is_char "_" c || is_space c.

Definition PLACEHOLDER_PATTERNS : list regex :=
  [ (lit_i "your" ;; Chr us_or_space ;; star dot ;; lit_i "here")%re;
    lit_i "placeholder";
    (lit_i "change" ;; Opt (Chr us_or_space) ;; lit_i "me")%re;
    (lit_i "replace" ;; Opt (Chr us_or_space) ;; lit_i "this")%re;
    lit_i "todo";
    (lit_i "xx" ;; plus (is_char_i "x"))%re;
    (Bos ;; lit "admin123" ;; Eos)%re;
    (Bos ;; lit "password123" ;; Eos)%re;
    (Bos ;; lit "test123" ;; Eos)%re;
    (Bos ;; lit "secret" ;; Eos)%re;
    (Bos ;; lit "changeme" ;; Eos)%re ].

Definition is_placeholder (value : str) : bool :=
  match py_strip value with
  | [] => true
  | _ => existsb (fun pattern => found (re_search pattern value))
           PLACEHOLDER_PATTERNS
  end.

(** The hint pattern, one token after the other:  \( ( \w+ ) \)  *)
Definition HINT_PATTERN : regex :=
  (Chr (is_char "(") ;; Grp 1 (plus is_word) ;; Chr (is_char ")"))%re.

Definition extract_validation_type (comment : option str) : option str :=
  match comment with
  | None | Some [] => None
  | Some comment =>
      match re_search HINT_PATTERN comment with
      | Some m => m 1
      | None => None
      end
  end.

(** ** The world of a run

    The files, the answers the user is going to type (each one a return of
    [Prompt.ask]) and what has been printed so far.  Paths are plain
    strings.  Failures of the operating system (permissions, a full disk)
    are left out; the failures that depend on the data of a run are there:
    the [KeyError] of a look-up, the [MarkupError] of rich for a text it
    cannot read, and the [SameFileError] of [shutil.copy2].  A run ends by
    returning, by raising, or it stays blocked on a prompt that is never
    answered. *)

(** What the console is given: one item for each call of [console.print]
    and of [Prompt.ask], with the data that the call puts into its text. *)

Inductive output : Type :=
| OutExampleNotFound (example_path : str)
| OutInSync
| OutMissingKeys (rows : list (str * str * str))
| OutPrompt (prompt_text : str)
| OutConfirm
| OutCancelled
| OutBackupCreated (backup_path : str)
| OutInputPanel
| OutInvalid (error_message : option str)
| OutSyncSummary (added : nat)
| OutEnvNotFound (env_path : str)
| OutEmptyFile
| OutNoPlaceholders
| OutIssueCount (found : nat)
| OutIssues (rows : list (str * str * str))
| OutRecommendation
| OutBlank.

Record world : Type := mkWorld {
  files : str -> option str;
  answers : list str;
  console : list output
}.

Inductive result (A : Type) : Type :=
| Returned (a : A)
| Blocked
| Raised (e : str).

Arguments Returned {A} a.
Arguments Blocked {A}.
Arguments Raised {A} e.

Definition io (A : Type) : Type := world -> result A * world.

Definition ret {A : Type} (a : A) : io A := fun w => (Returned a, w).

Definition bind {A B : Type} (c : io A) (k : A -> io B) : io B :=
  fun w =>
    match c w with
    | (Returned a, w') => k a w'
    | (Blocked, w') => (Blocked, w')
    | (Raised e, w') => (Raised e, w')
    end.

Notation "'let*' x ':=' c 'in' k" := (bind c (fun x => k))
  (at level 10, x name, c at level 100, k at level 200).
Notation "c '>>' k" := (bind c (fun _ => k))
  (at level 100, k at level 200, right associativity).

Definition raise {A : Type} (e : str) : io A := fun w => (Raised e, w).

(** The items whose text holds a path, a value of a file or an answer.
    The text of the others is fixed, a count apart. *)
Definition holds_text (o : output) : bool :=
  match o with
  | OutExampleNotFound _ | OutMissingKeys _ | OutPrompt _
  | OutBackupCreated _ | OutInvalid _ | OutEnvNotFound _ | OutIssues _ => true
  | _ => false
  end.

Definition path_exists (path : str) : io bool :=
  fun w => (Returned (match files w path with Some _ => true | None => false end), w).

Definition read_path (path : str) : io (option str) :=
  fun w => (Returned (files w path), w).

Definition write_path (path content : str) : io unit :=
  fun w =>
    (Returned tt,
     mkWorld (fun p => if str_eqb p path then Some content else files w p)
       (answers w) (console w)).

Definition parse_path (path : str) : io (dict EnvEntry) :=
  let* file := read_path path in ret (parse_file file).

(** ** sync.py *)

Definition find_missing_keys (example_entries env_entries : dict EnvEntry)
  : list str :=
  filter (fun key => negb (dict_mem key env_entries)) (dict_keys example_entries).

(** [example_entries[key]] *)
Definition lookup (key : str) (entries : dict EnvEntry) : io EnvEntry :=
  match dict_get key entries with
  | Some entry => ret entry
  | None => raise "KeyError"
  end.

Section Run.

(** rich reads what it is given as console markup, and raises [MarkupError]
    for a text it cannot read, such as one with a closing tag that closes
    nothing.  [renders o] says that the text of the item [o] can be read;
    which texts can is left to the library. *)
Variable renders : output -> bool.

Variable urlparse : str -> str + (str * str).

(** [console.print(...)]: the fixed texts of the program are well formed;
    a text with data in it is shown if it can be read, and nothing of it is
    shown if it cannot. *)
Definition print (o : output) : io unit :=
  fun w =>
    if holds_text o && negb (renders o) then (Raised "MarkupError", w)
    else (Returned tt, mkWorld (files w) (answers w) (console w ++ [o])).

(** [Prompt.ask(...)]: the prompt is read as markup before anything is
    asked. *)
Definition ask (o : output) : io str :=
  fun w =>
    if holds_text o && negb (renders o) then (Raised "MarkupError", w)
    else
      let shown := console w ++ [o] in
      match answers w with
      | a :: rest => (Returned a, mkWorld (files w) rest shown)
      | [] => (Blocked, mkWorld (files w) [] shown)
      end.

Fixpoint missing_rows (missing_keys : list str)
    (example_entries : dict EnvEntry) : io (list (str * str * str)) :=
  match missing_keys with
  | [] => ret []
  | key :: keys =>
      let* entry := lookup key example_entries in
      let validation_type := extract_validation_type (comment entry) in
      let validation_str :=
        match validation_type with
        | Some (x :: t) => "(" ++ (x :: t) ++ ")"
        | _ => "-" : str
        end in
      let* rows := missing_rows keys example_entries in
      ret ((key, value entry, validation_str) :: rows)
  end.

Definition display_missing_keys (missing_keys : list str)
    (example_entries : dict EnvEntry) : io unit :=
  let* rows := missing_rows missing_keys example_entries in
  print OutBlank >> print (OutMissingKeys rows) >> print OutBlank.

Definition confirm_sync : io bool :=
  let* response := ask OutConfirm in
  ret (str_eqb (py_lower response) "y").

Definition create_backup (env_path : str) (backup_path : option str)
  : io unit :=
  let* file := read_path env_path in
  match file with
  | None => ret tt
  | Some content =>
      let backup_path :=
        match backup_path with
        | None => env_path ++ ".bak"
        | Some p => p
        end in
      if str_eqb backup_path env_path then raise "SameFileError"
      else
        write_path backup_path content >> print (OutBackupCreated backup_path)
  end.

(** The [while True] loop of [_prompt_for_value], one turn per answer:
    [Prompt.ask(prompt_text)], then the message of a rejected answer. *)
Fixpoint prompt_loop (prompt_text : str) (validation_type : option str)
    (pending : list str) (w : world) : result str * world :=
  if negb (renders (OutPrompt prompt_text)) then (Raised "MarkupError", w)
  else
    let shown := console w ++ [OutPrompt prompt_text] in
    match pending with
    | [] => (Blocked, mkWorld (files w) [] shown)
    | value :: pending' =>
        let result := validate_value urlparse value validation_type in
        if is_valid result then
          (Returned value, mkWorld (files w) pending' shown)
        else if negb (renders (OutInvalid (error_message result))) then
          (Raised "MarkupError", mkWorld (files w) pending' shown)
        else
          prompt_loop prompt_text validation_type pending'
            (mkWorld (files w) pending'
               (shown ++ [OutInvalid (error_message result)]))
    end.

(** The [prompt_text] of [_prompt_for_value]. *)
Definition prompt_text_of (key example_value : str)
    (validation_type : option str) : str :=
  let validation_hint :=
    match validation_type with
    | Some (x :: t) => " [magenta](" ++ (x :: t) ++ ")[/magenta]"
    | _ => [] : str
    end in
  "[cyan]" ++ key ++ "[/cyan]" ++ validation_hint
  ++ " [dim](example: " ++ example_value ++ ")[/dim]".

Definition prompt_for_value (key example_value : str)
    (validation_type : option str) : io str :=
  fun w =>
    prompt_loop (prompt_text_of key example_value validation_type)
      validation_type (answers w) w.

Fixpoint collect_loop (missing_keys : list str)
    (example_entries : dict EnvEntry) (new_entries : dict str)
  : io (dict str) :=
  match missing_keys with
  | [] => ret new_entries
  | key :: keys =>
      let* entry := lookup key example_entries in
      let validation_type := extract_validation_type (comment entry) in
      let* value := prompt_for_value key (value entry) validation_type in
      collect_loop keys example_entries (dict_set key value new_entries)
  end.

Definition collect_values (missing_keys : list str)
    (example_entries : dict EnvEntry) : io (dict str) :=
  print OutInputPanel >> print OutBlank >>
  collect_loop missing_keys example_entries [].

(** What [_append_to_env] writes after the content the file had. *)
Definition appended_text (old : str) (new_entries : dict str) : str :=
  (match old with [] => [] | _ :: _ => [LF] end)
  ++ "# Added by Henvdall" ++ [LF]
  ++ List.concat (map (fun kv => format_entry (fst kv) (snd kv) ++ [LF]) new_entries).

Definition append_to_env (env_path : str) (new_entries : dict str)
  : io unit :=
  let* file := read_path env_path in
  let old := match file with Some content => content | None => [] end in
  write_path env_path (old ++ appended_text old new_entries).

Definition display_summary (new_entries : dict str) : io unit :=
  print OutBlank >> print (OutSyncSummary (List.length new_entries)).

Definition sync (example_path env_path : str) (backup_path : option str)
  : io bool :=
  let* there := path_exists example_path in
  if negb there then
    print (OutExampleNotFound example_path) >> ret false
  else
    let* example_entries := parse_path example_path in
    let* env_entries := parse_path env_path in
    let missing_keys := find_missing_keys example_entries env_entries in
    match missing_keys with
    | [] => print OutInSync >> ret false
    | _ :: _ =>
        display_missing_keys missing_keys example_entries >>
        let* confirmed := confirm_sync in
        if negb confirmed then print OutCancelled >> ret false
        else
          create_backup env_path backup_path >>
          let* new_entries := collect_values missing_keys example_entries in
          append_to_env env_path new_entries >>
          display_summary new_entries >>
          ret true
    end.

(** ** audit.py *)

Definition get_placeholder_reason (value : str) : str :=
  match py_strip value with
  | [] => "Empty value"
  | _ =>
      if existsb (fun pattern => found (re_search pattern value))
           PLACEHOLDER_PATTERNS
      then "Contains placeholder text"
      else "Suspicious value"
  end.

Fixpoint find_placeholder_values (entries : dict EnvEntry)
  : list (str * str * str) :=
  match entries with
  | [] => []
  | (key, entry) :: rest =>
      if is_placeholder (value entry)
      then (key, value entry, get_placeholder_reason (value entry))
             :: find_placeholder_values rest
      else find_placeholder_values rest
  end.

(** The rows of the table of [_display_issues]. *)
Definition issue_rows (issues : list (str * str * str))
  : list (str * str * str) :=
  map (fun i =>
         match i with
         | (key, value, reason) =>
             (key,
              match value with [] => "[dim](empty)[/dim]" : str | _ => value end,
              reason)
         end) issues.

Definition display_issues (issues : list (str * str * str)) : io unit :=
  print OutBlank >> print (OutIssueCount (List.length issues)) >>
  print OutBlank >> print (OutIssues (issue_rows issues)) >> print OutBlank >>
  print OutRecommendation.

Definition audit (env_path : str) : io bool :=
  let* there := path_exists env_path in
  if negb there then print (OutEnvNotFound env_path) >> ret false
  else
    let* entries := parse_path env_path in
    match entries with
    | [] => print OutEmptyFile >> ret false
    | _ :: _ =>
        match find_placeholder_values entries with
        | [] => print OutNoPlaceholders >> ret false
        | issues => display_issues issues >> ret true
        end
    end.

End Run.

(** ** What a pattern matches, stated without the search order

    [matches r pos w rest g g']: at position [pos], with [rest] after it,
    the pattern [r] can take the text [w] and turn the groups [g] into
    [g']. *)

Inductive matches : regex -> nat -> str -> str -> groups -> groups -> Prop :=
| M_Eps pos rest g :
    matches Eps pos [] rest g g
| M_Chr c x pos rest g :
    c x = true -> matches (Chr c) pos [x] rest g g
| M_Cat r1 r2 pos w1 w2 rest g g1 g2 :
    matches r1 pos w1 (w2 ++ rest) g g1 ->
    matches r2 (pos + List.length w1) w2 rest g1 g2 ->
    matches (Cat r1 r2) pos (w1 ++ w2) rest g g2
| M_Rep greedy min c pos w rest g :
    forallb c w = true -> min <= List.length w ->
    matches (Rep greedy min c) pos w rest g g
| M_Opt_taken r pos w rest g g' :
    matches r pos w rest g g' -> matches (Opt r) pos w rest g g'
| M_Opt_skipped r pos rest g :
    matches (Opt r) pos [] rest g g
| M_Grp n r pos w rest g g' :
    matches r pos w rest g g' ->
    matches (Grp n r) pos w rest g (set_group n w g')
| M_Bos rest g :
    matches Bos 0 [] rest g g
| M_Eos pos rest g :
    at_end rest = true -> matches Eos pos [] rest g g.

(** ** Vocabulary of the statements *)

(** A text [w] with [P] occurs somewhere in [v]. *)
Definition occurs (P : str -> Prop) (v : str) : Prop :=
  exists pre w post, v = pre ++ w ++ post /\ P w.

(** The same text up to the case of the ASCII letters. *)
Definition same_letters (l w : str) : Prop := map fold_case w = map fold_case l.

(** [a], then at most one underscore or white-space character, then [b],
    case-insensitively. *)
Definition two_words (a b w : str) : Prop :=
  exists wa sep wb,
    w = wa ++ sep ++ wb /\ same_letters a wa /\ same_letters b wb /\
    (sep = [] \/ exists c, sep = [c] /\ us_or_space c = true).

(** "your", one underscore or white-space character, any text of one line,
    "here", case-insensitively. *)
Definition your_here (w : str) : Prop :=
  exists wa sep mid wb,
    w = wa ++ sep :: mid ++ wb /\ same_letters "your" wa /\
    us_or_space sep = true /\ ~ In LF mid /\ same_letters "here" wb.

Definition PLACEHOLDER_LITERALS : list str :=
  [ "admin123" : str; "password123" : str; "test123" : str;
    "secret" : str; "changeme" : str ].

(** The placeholder rule in the words of the specification: an underscore
    or a space (not any white space) between the two words, any text between
    "your" and "here", and the five literals compared with the whole
    value. *)
Definition us_or_blank (c : ascii) : bool := is_char "_" c || is_char " " c.

Definition any_char (c : ascii) : bool := true.

Definition STATED_PATTERNS : list regex :=
  [ (lit_i "your" ;; star any_char ;; lit_i "here")%re;
    lit_i "placeholder";
    (lit_i "change" ;; Opt (Chr us_or_blank) ;; lit_i "me")%re;
    (lit_i "replace" ;; Opt (Chr us_or_blank) ;; lit_i "this")%re;
    lit_i "todo";
    (lit_i "xx" ;; plus (is_char_i "x"))%re ].

Definition stated_placeholder_rule (value : str) : bool :=
  match py_strip value with
  | [] => true
  | _ =>
      existsb (fun pattern => found (re_search pattern value)) STATED_PATTERNS
      || existsb (str_eqb value) PLACEHOLDER_LITERALS
  end.

(** A key of the form [A-Za-z_][A-Za-z0-9_]* *)
Definition is_identifier (key : str) : bool :=
  match key with
  | x :: t => ident_start x && forallb ident_char t
  | [] => false
  end.

(** A hint token: an opening parenthesis, one or more word characters, a
    closing parenthesis. *)
Definition hint_token (w t : str) : Prop :=
  t = "(" ++ w ++ ")" /\ w <> [] /\ forallb is_word w = true.

(** A base-10 integer in the words of the specification: an optional
    leading sign, then decimal digits. *)
Definition stated_decimal_integer (value : str) : bool :=
  match value with
  | x :: t =>
      if int_sign x then nonempty t && forallb is_digit t
      else forallb is_digit value
  | [] => false
  end.

(** The token of a comment that starts first. *)
Definition first_token (w comment : str) : Prop :=
  exists pre t post,
    comment = pre ++ t ++ post /\ hint_token w t /\
    forall pre2 t2 post2 w2,
      comment = pre2 ++ t2 ++ post2 -> hint_token w2 t2 ->
      List.length pre <= List.length pre2.

(** Runs of decimal digits, separated by single underscores. *)
Inductive digit_groups : str -> Prop :=
| DG_last d :
    d <> [] -> forallb is_digit d = true -> digit_groups d
| DG_more d s :
    d <> [] -> forallb is_digit d = true -> digit_groups s ->
    digit_groups (d ++ "_" ++ s).

(** What [int] accepts once the white space around it is gone. *)
Definition int_literal (core : str) : Prop :=
  digit_groups core \/
  exists sign body, int_sign sign = true /\ core = sign :: body /\ digit_groups body.

(** [l1] is [l2] with some elements left out, the others in their order. *)
Inductive subseq {A : Type} : list A -> list A -> Prop :=
| Sub_nil : subseq [] []
| Sub_skip x l1 l2 : subseq l1 l2 -> subseq l1 (x :: l2)
| Sub_take x l1 l2 : subseq l1 l2 -> subseq (x :: l1) (x :: l2).

(** The keys of a dictionary are distinct. *)
Definition dict_wf {V : Type} (d : dict V) : Prop := NoDup (dict_keys d).

(** The invariant of [ValidationResult]. *)
Definition result_wf (r : ValidationResult) : Prop :=
  error_message r <> None <-> is_valid r = false.

(** ** A small project, to run the definitions on

    A template with a port (hinted as an integer) and a name, an actual
    file that has the name only, and a URL parser that rejects
    everything. *)

Definition demo_urlparse : str -> str + (str * str) :=
  fun _ => inl ("rejected" : str).

(** A reader of markup for the examples, after the rule of rich that a
    closing tag with no tag open is an error: [open] counts the tags that
    are open. *)
Fixpoint markup_ok (open : nat) (s : str) : bool :=
  match s with
  | [] => true
  | x :: s' =>
      if is_char "[" x then
        match s' with
        | y :: _ =>
            if is_char "/" y then
              match open with
              | 0 => false
              | S n => markup_ok n s'
              end
            else markup_ok (S open) s'
        | [] => true
        end
      else markup_ok open s'
  end.

Definition row_ok (row : str * str * str) : bool :=
  match row with
  | (a, b, c) => markup_ok 0 a && markup_ok 0 b && markup_ok 0 c
  end.

Definition demo_renders (o : output) : bool :=
  match o with
  | OutExampleNotFound text | OutPrompt text
  | OutBackupCreated text | OutEnvNotFound text => markup_ok 0 text
  | OutInvalid (Some text) => markup_ok 0 text
  | OutMissingKeys rows | OutIssues rows => forallb row_ok rows
  | _ => true
  end.

Definition demo_files : str -> option str :=
  fun path =>
    if str_eqb path ".env.example" then Some ("PORT=3000  # (int)
NAME=x
" : str)
    else if str_eqb path ".env" then Some ("NAME=me
" : str)
    else None.

Definition demo_world (answers : list str) : world :=
  mkWorld demo_files answers [].

(** * Properties *)

(** ** Characters and text *)

Lemma str_eqb_eq (a b : str) : str_eqb a b = true <-> a = b.
Proof.
  revert b; induction a as [|x a IH]; intros [|y b]; simpl;
    try (split; [discriminate | discriminate]); try tauto.
  rewrite andb_true_iff, Ascii.eqb_eq, IH.
  split; [intros [-> ->]; reflexivity | intros H; inversion H; auto].
Qed.

Lemma str_eqb_refl (a : str) : str_eqb a a = true.
Proof. apply str_eqb_eq; reflexivity. Qed.

Lemma str_eqb_neq (a b : str) : str_eqb a b = false <-> a <> b.
Proof.
  rewrite <- str_eqb_eq. destruct (str_eqb a b); split; congruence.
Qed.

Lemma is_char_eq (a c : ascii) : is_char a c = true <-> c = a.
Proof. apply Ascii.eqb_eq. Qed.

Lemma contains_In (c : ascii) (s : str) : contains c s = true <-> In c s.
Proof.
  unfold contains. rewrite existsb_exists. split.
  - intros (x & Hx & E). apply is_char_eq in E. subst; assumption.
  - intros H. exists c. split; [assumption | apply is_char_eq; reflexivity].
Qed.

Lemma contains_false (c : ascii) (s : str) : contains c s = false <-> ~ In c s.
Proof.
  rewrite <- contains_In. destruct (contains c s); split; congruence.
Qed.

Lemma orelse_none (a : option groups) : orelse a None = a.
Proof. destruct a; reflexivity. Qed.

Lemma found_orelse (a b : option groups) :
  found (orelse a b) = found a || found b.
Proof. destruct a; reflexivity. Qed.

Lemma found_true (a : option groups) : found a = true <-> exists r, a = Some r.
Proof.
  destruct a; simpl; split; eauto; try discriminate.
  intros [r H]; discriminate.
Qed.

Lemma firstn_length_app (w rest : str) (pos : nat) :
  firstn (pos + List.length w - pos) (w ++ rest) = w.
Proof.
  replace (pos + List.length w - pos) with (List.length w + 0) by lia.
  rewrite firstn_app_2. simpl. apply app_nil_r.
Qed.

(** ** The matcher against [matches] *)

Lemma rep_greedy_sound c min pos s g k res :
  rep_greedy c min pos s g k = Some res ->
  exists w rest,
    s = w ++ rest /\ forallb c w = true /\ min <= List.length w /\
    k (pos + List.length w) rest g = Some res.
Proof.
  revert min pos. induction s as [|x s IH]; intros min pos H; simpl in H.
  - destruct (Nat.eqb_spec min 0); [|discriminate].
    exists [], []. rewrite Nat.add_0_r. simpl. repeat split; auto; lia.
  - assert (Stop : (if min =? 0 then k pos (x :: s) g else None) = Some res ->
                   exists w rest, x :: s = w ++ rest /\ forallb c w = true /\
                     min <= List.length w /\
                     k (pos + List.length w) rest g = Some res).
    { destruct (Nat.eqb_spec min 0); [|discriminate]. intros Hk.
      exists [], (x :: s). rewrite Nat.add_0_r. simpl. repeat split; auto; lia. }
    destruct (c x) eqn:Hc; [|auto].
    destruct (rep_greedy c (pred min) (S pos) s g k) eqn:Hr; simpl in H; [|auto].
    injection H as ->. apply IH in Hr. destruct Hr as (w & rest & -> & Hw & Hm & Hk).
    exists (x :: w), rest. simpl. rewrite Hc, Hw.
    replace (pos + S (List.length w)) with (S pos + List.length w) by lia.
    repeat split; auto; lia.
Qed.

Lemma rep_lazy_sound c min pos s g k res :
  rep_lazy c min pos s g k = Some res ->
  exists w rest,
    s = w ++ rest /\ forallb c w = true /\ min <= List.length w /\
    k (pos + List.length w) rest g = Some res.
Proof.
  revert min pos. induction s as [|x s IH]; intros min pos H; simpl in H.
  - destruct (Nat.eqb_spec min 0); [|discriminate].
    rewrite orelse_none in H.
    exists [], []. rewrite Nat.add_0_r. simpl. repeat split; auto; lia.
  - assert (More : (if c x then rep_lazy c (pred min) (S pos) s g k else None)
                   = Some res ->
                   exists w rest, x :: s = w ++ rest /\ forallb c w = true /\
                     min <= List.length w /\
                     k (pos + List.length w) rest g = Some res).
    { destruct (c x) eqn:Hc; [|discriminate]. intros Hr.
      apply IH in Hr. destruct Hr as (w & rest & -> & Hw & Hm & Hk).
      exists (x :: w), rest. simpl. rewrite Hc, Hw.
      replace (pos + S (List.length w)) with (S pos + List.length w) by lia.
      repeat split; auto; lia. }
    destruct (Nat.eqb_spec min 0); [|auto].
    destruct (k pos (x :: s) g) eqn:Hk; simpl in H; [|auto].
    injection H as ->.
    exists [], (x :: s). rewrite Nat.add_0_r. simpl. repeat split; auto; lia.
Qed.

(** Whatever the matcher returns came out of the continuation, after a
    text the pattern can take. *)
Lemma rmatch_sound r : forall pos s g k res,
  rmatch r pos s g k = Some res ->
  exists w rest g',
    s = w ++ rest /\ matches r pos w rest g g' /\
    k (pos + List.length w) rest g' = Some res.
Proof.
  induction r as [|c|r1 IH1 r2 IH2|greedy min c|r IH|n r IH| |];
    intros pos s g k res H; simpl in H.
  - exists [], s, g. rewrite Nat.add_0_r. repeat split; auto. constructor.
  - destruct s as [|x s]; [discriminate|].
    destruct (c x) eqn:Hc; [|discriminate].
    exists [x], s, g. simpl. rewrite Nat.add_1_r.
    repeat split; auto. constructor; assumption.
  - apply IH1 in H. destruct H as (w1 & rest1 & g1 & -> & M1 & H).
    apply IH2 in H. destruct H as (w2 & rest & g2 & -> & M2 & H).
    exists (w1 ++ w2), rest, g2. rewrite app_assoc, length_app, Nat.add_assoc.
    repeat split; auto. econstructor; eassumption.
  - assert (exists w rest, s = w ++ rest /\ forallb c w = true /\
              min <= List.length w /\ k (pos + List.length w) rest g = Some res)
      as (w & rest & -> & Hw & Hm & Hk)
      by (destruct greedy; [apply rep_greedy_sound | apply rep_lazy_sound]; assumption).
    exists w, rest, g. repeat split; auto. constructor; assumption.
  - destruct (rmatch r pos s g k) eqn:Hr; simpl in H.
    + injection H as ->. apply IH in Hr.
      destruct Hr as (w & rest & g' & -> & M & Hk).
      exists w, rest, g'. repeat split; auto. constructor; assumption.
    + exists [], s, g. rewrite Nat.add_0_r. repeat split; auto.
      apply M_Opt_skipped.
  - apply IH in H. destruct H as (w & rest & g' & -> & M & Hk).
    rewrite firstn_length_app in Hk.
    exists w, rest, (set_group n w g'). repeat split; auto.
    constructor; assumption.
  - destruct (Nat.eqb_spec pos 0); [|discriminate]. subst pos.
    exists [], s, g. repeat split; auto. constructor.
  - destruct (at_end s) eqn:He; [|discriminate].
    exists [], s, g. rewrite Nat.add_0_r. repeat split; auto.
    constructor; assumption.
Qed.

Lemma rep_greedy_complete c w : forall min pos rest g k,
  forallb c w = true -> min <= List.length w ->
  found (k (pos + List.length w) rest g) = true ->
  found (rep_greedy c min pos (w ++ rest) g k) = true.
Proof.
  induction w as [|x w IH]; intros min pos rest g k Hw Hm Hk; simpl in *.
  - assert (min = 0) by lia. subst min. rewrite Nat.add_0_r in Hk.
    destruct rest as [|y rest]; simpl; [assumption|].
    destruct (c y); [|assumption].
    rewrite found_orelse, Hk. apply orb_true_r.
  - apply andb_true_iff in Hw. destruct Hw as [Hx Hw]. rewrite Hx.
    rewrite found_orelse. apply orb_true_iff. left.
    apply IH; [assumption | lia |].
    replace (S pos + List.length w) with (pos + S (List.length w)) by lia.
    assumption.
Qed.

Lemma rep_lazy_complete c w : forall min pos rest g k,
  forallb c w = true -> min <= List.length w ->
  found (k (pos + List.length w) rest g) = true ->
  found (rep_lazy c min pos (w ++ rest) g k) = true.
Proof.
  induction w as [|x w IH]; intros min pos rest g k Hw Hm Hk; simpl in *.
  - assert (min = 0) by lia. subst min. rewrite Nat.add_0_r in Hk.
    destruct rest as [|y rest]; simpl; rewrite found_orelse, Hk; reflexivity.
  - apply andb_true_iff in Hw. destruct Hw as [Hx Hw]. rewrite Hx.
    assert (found (rep_lazy c (pred min) (S pos) (w ++ rest) g k) = true) as Hr.
    { apply IH; [assumption | lia |].
      replace (S pos + List.length w) with (pos + S (List.length w)) by lia.
      assumption. }
    destruct (min =? 0); [|assumption].
    rewrite found_orelse, Hr. apply orb_true_r.
Qed.

(** When the pattern can take a text after which the continuation
    succeeds, the matcher succeeds. *)
Lemma rmatch_complete r pos w rest g g' :
  matches r pos w rest g g' ->
  forall k, found (k (pos + List.length w) rest g') = true ->
            found (rmatch r pos (w ++ rest) g k) = true.
Proof.
  induction 1 as [pos rest g|c x pos rest g Hc
                 |r1 r2 pos w1 w2 rest g g1 g2 M1 IH1 M2 IH2
                 |greedy min c pos w rest g Hw Hm
                 |r pos w rest g g' M IH|r pos rest g
                 |n r pos w rest g g' M IH|rest g|pos rest g He];
    intros k Hk; simpl.
  - rewrite Nat.add_0_r in Hk. assumption.
  - rewrite Hc. simpl in Hk. rewrite Nat.add_1_r in Hk. assumption.
  - rewrite <- app_assoc. apply IH1. apply IH2.
    rewrite length_app, Nat.add_assoc in Hk. assumption.
  - destruct greedy; [apply rep_greedy_complete | apply rep_lazy_complete];
      assumption.
  - rewrite found_orelse, (IH k Hk). reflexivity.
  - rewrite Nat.add_0_r in Hk. rewrite found_orelse, Hk. apply orb_true_r.
  - apply IH. rewrite firstn_length_app. assumption.
  - assumption.
  - rewrite Nat.add_0_r in Hk. simpl. rewrite He. assumption.
Qed.


(** ** Searching *)

Lemma search_from_found r : forall s pos,
  found (search_from r pos s) = true <->
  exists pre w rest g',
    s = pre ++ w ++ rest /\ matches r (pos + List.length pre) w rest no_groups g'.
Proof.
  induction s as [|x s IH]; intros pos; simpl; rewrite found_orelse, orb_true_iff.
  - split.
    + intros [H|H]; [|discriminate]. apply found_true in H. destruct H as [res H].
      apply rmatch_sound in H. destruct H as (w & rest & g' & E & M & _).
      exists [], w, rest, g'. rewrite Nat.add_0_r. auto.
    + intros (pre & w & rest & g' & E & M). left.
      destruct pre; [|discriminate]. simpl in E. rewrite Nat.add_0_r in M.
      rewrite E. eapply rmatch_complete; [eassumption | reflexivity].
  - split.
    + intros [H|H].
      * apply found_true in H. destruct H as [res H].
        apply rmatch_sound in H. destruct H as (w & rest & g' & E & M & _).
        exists [], w, rest, g'. rewrite Nat.add_0_r. auto.
      * apply IH in H. destruct H as (pre & w & rest & g' & E & M).
        exists (x :: pre), w, rest, g'. simpl. split; [congruence|].
        replace (pos + S (List.length pre)) with (S pos + List.length pre) by lia.
        assumption.
    + intros (pre & w & rest & g' & E & M). destruct pre as [|y pre]; simpl in E.
      * left. rewrite Nat.add_0_r in M. rewrite E.
        eapply rmatch_complete; [eassumption | reflexivity].
      * right. injection E as -> ->. apply IH. exists pre, w, rest, g'.
        split; [reflexivity|].
        replace (S pos + List.length pre) with (pos + S (List.length pre)) by lia.
        assumption.
Qed.

(** The groups a search returns are those of a match at the first position
    that has one. *)
Lemma search_from_first r : forall s pos res,
  search_from r pos s = Some res ->
  exists pre w rest,
    s = pre ++ w ++ rest /\
    matches r (pos + List.length pre) w rest no_groups res /\
    forall pre2 w2 rest2 g2,
      s = pre2 ++ w2 ++ rest2 ->
      matches r (pos + List.length pre2) w2 rest2 no_groups g2 ->
      List.length pre <= List.length pre2.
Proof.
  intros s pos res H.
  assert (Here : forall res', rmatch r pos s no_groups accept = Some res' ->
            exists w rest, s = [] ++ w ++ rest /\
              matches r (pos + 0) w rest no_groups res').
  { intros res' Hr. apply rmatch_sound in Hr.
    destruct Hr as (w & rest & g' & E & M & A). injection A as ->.
    exists w, rest. rewrite Nat.add_0_r. auto. }
  revert pos res H Here. induction s as [|x s IH]; intros pos res H Here; simpl in H.
  - rewrite orelse_none in H. destruct (Here _ H) as (w & rest & E & M).
    exists [], w, rest. repeat split; auto. intros; simpl; lia.
  - destruct (rmatch r pos (x :: s) no_groups accept) eqn:Hr; simpl in H.
    + injection H as ->. destruct (Here _ eq_refl) as (w & rest & E & M).
      exists [], w, rest. repeat split; auto. intros; simpl; lia.
    + apply IH in H.
      * destruct H as (pre & w & rest & E & M & First).
        exists (x :: pre), w, rest. simpl. split; [congruence|]. split.
        { replace (pos + S (List.length pre)) with (S pos + List.length pre) by lia.
          assumption. }
        intros pre2 w2 rest2 g2 E2 M2. destruct pre2 as [|y pre2]; simpl in *.
        { exfalso. rewrite Nat.add_0_r in M2.
          assert (F : found (rmatch r pos (w2 ++ rest2) no_groups accept) = true)
            by (eapply rmatch_complete; [eassumption | reflexivity]).
          rewrite <- E2, Hr in F. discriminate. }
        { injection E2 as -> E2. apply le_n_S.
          rewrite Nat.add_succ_r in M2. eapply First; [exact E2 | exact M2]. }
      * intros res' Hr'. apply rmatch_sound in Hr'.
        destruct Hr' as (w & rest & g' & E & M & A). injection A as ->.
        exists w, rest. rewrite Nat.add_0_r. auto.
Qed.

(** ** Reading [matches] off a pattern *)

Lemma matches_Eps pos w rest g g' :
  matches Eps pos w rest g g' <-> w = [] /\ g' = g.
Proof.
  split; [inversion 1; auto | intros [-> ->]; constructor].
Qed.

Lemma matches_Chr c pos w rest g g' :
  matches (Chr c) pos w rest g g' <-> exists x, w = [x] /\ c x = true /\ g' = g.
Proof.
  split.
  - inversion 1; subst; eauto.
  - intros (x & -> & Hc & ->). constructor; assumption.
Qed.

Lemma matches_Cat r1 r2 pos w rest g g' :
  matches (Cat r1 r2) pos w rest g g' <->
  exists w1 w2 g1,
    w = w1 ++ w2 /\ matches r1 pos w1 (w2 ++ rest) g g1 /\
    matches r2 (pos + List.length w1) w2 rest g1 g'.
Proof.
  split.
  - inversion 1; subst; eauto 7.
  - intros (w1 & w2 & g1 & -> & M1 & M2). econstructor; eassumption.
Qed.

Lemma matches_Rep greedy min c pos w rest g g' :
  matches (Rep greedy min c) pos w rest g g' <->
  forallb c w = true /\ min <= List.length w /\ g' = g.
Proof.
  split.
  - inversion 1; subst; auto.
  - intros (Hw & Hm & ->). constructor; assumption.
Qed.

Lemma matches_Opt r pos w rest g g' :
  matches (Opt r) pos w rest g g' <->
  matches r pos w rest g g' \/ (w = [] /\ g' = g).
Proof.
  split.
  - inversion 1; subst; auto.
  - intros [M | [-> ->]]; [apply M_Opt_taken; assumption | apply M_Opt_skipped].
Qed.

Lemma matches_Grp n r pos w rest g g' :
  matches (Grp n r) pos w rest g g' <->
  exists g1, matches r pos w rest g g1 /\ g' = set_group n w g1.
Proof.
  split.
  - inversion 1; subst; eauto.
  - intros (g1 & M & ->). constructor; assumption.
Qed.

Lemma matches_Bos pos w rest g g' :
  matches Bos pos w rest g g' <-> pos = 0 /\ w = [] /\ g' = g.
Proof.
  split; [inversion 1; auto | intros (-> & -> & ->); constructor].
Qed.

Lemma matches_Eos pos w rest g g' :
  matches Eos pos w rest g g' <-> at_end rest = true /\ w = [] /\ g' = g.
Proof.
  split; [inversion 1; auto | intros (He & -> & ->); constructor; assumption].
Qed.

Lemma matches_lit_i l : forall pos w rest g g',
  matches (lit_i l) pos w rest g g' <-> same_letters l w /\ g' = g.
Proof.
  unfold same_letters.
  induction l as [|a l IH]; intros pos w rest g g'; simpl.
  - rewrite matches_Eps. split; intros [H ->]; split; auto.
    + subst; reflexivity.
    + destruct w; [reflexivity | discriminate].
  - rewrite matches_Cat. split.
    + intros (w1 & w2 & g1 & -> & M1 & M2).
      apply matches_Chr in M1. destruct M1 as (x & -> & Hx & ->).
      apply IH in M2. destruct M2 as [E ->]. split; [|reflexivity].
      simpl. apply Ascii.eqb_eq in Hx. congruence.
    + intros [E ->]. destruct w as [|x w]; [discriminate|]. simpl in E.
      injection E as Ex E. exists [x], w, g. repeat split.
      * apply matches_Chr. exists x. repeat split. apply Ascii.eqb_eq; assumption.
      * apply IH. auto.
Qed.

Lemma matches_lit l : forall pos w rest g g',
  matches (lit l) pos w rest g g' <-> w = l /\ g' = g.
Proof.
  induction l as [|a l IH]; intros pos w rest g g'; simpl.
  - apply matches_Eps.
  - rewrite matches_Cat. split.
    + intros (w1 & w2 & g1 & -> & M1 & M2).
      apply matches_Chr in M1. destruct M1 as (x & -> & Hx & ->).
      apply IH in M2. destruct M2 as [-> ->]. apply is_char_eq in Hx.
      subst; auto.
    + intros [-> ->]. exists [a], l, g. repeat split.
      * apply matches_Chr. exists a. repeat split. apply is_char_eq; reflexivity.
      * apply IH. auto.
Qed.

(** ** Dictionaries *)

Lemma dict_mem_In {V : Type} (k : str) (d : dict V) :
  dict_mem k d = true <-> In k (dict_keys d).
Proof.
  unfold dict_mem. induction d as [|[k' v'] d IH]; simpl.
  - split; [discriminate | tauto].
  - destruct (str_eqb k' k) eqn:E.
    + apply str_eqb_eq in E. split; auto.
    + apply str_eqb_neq in E. rewrite IH. split; [auto | intros [H|H]; [contradiction | assumption]].
Qed.

Lemma dict_keys_set {V : Type} (k : str) (v : V) (d : dict V) :
  dict_keys (dict_set k v d)
  = if dict_mem k d then dict_keys d else dict_keys d ++ [k].
Proof.
  unfold dict_mem. induction d as [|[k' v'] d IH]; simpl; [reflexivity|].
  destruct (str_eqb k' k) eqn:E; simpl; [reflexivity|].
  rewrite IH. destruct (dict_get k d); reflexivity.
Qed.

Lemma dict_set_wf {V : Type} (k : str) (v : V) (d : dict V) :
  dict_wf d -> dict_wf (dict_set k v d).
Proof.
  unfold dict_wf. intros H. rewrite dict_keys_set.
  destruct (dict_mem k d) eqn:E; [assumption|].
  apply NoDup_app; [assumption | repeat constructor; simpl; tauto |].
  intros x Hx [<-|[]]. apply dict_mem_In in Hx. congruence.
Qed.

Lemma In_dict_set {V : Type} (k k0 : str) (v v0 : V) (d : dict V) :
  In (k, v) (dict_set k0 v0 d) -> (k = k0 /\ v = v0) \/ In (k, v) d.
Proof.
  induction d as [|[k' v'] d IH]; simpl.
  - intros [H|[]]. injection H as <- <-. auto.
  - destruct (str_eqb k' k0) eqn:E; simpl.
    + apply str_eqb_eq in E. subst k'. intros [H|H]; [injection H as <- <-|]; auto.
    + intros [H|H]; [auto|]. destruct (IH H); auto.
Qed.

Lemma parse_line_wf (entries : dict EnvEntry) (line : str) :
  dict_wf entries -> dict_wf (parse_line entries line).
Proof.
  intros H. unfold parse_line.
  destruct (py_strip (rstrip (is_char LF) line)); [assumption|].
  destruct (startswith _ _); [assumption|].
  destruct (re_match _ _); [apply dict_set_wf|]; assumption.
Qed.

(** Whatever the file holds, the keys of the parsed map are distinct. *)
Lemma parse_file_wf (file : option str) : dict_wf (parse_file file).
Proof.
  destruct file as [text|]; [|constructor].
  unfold parse_file, parse_text.
  assert (G : forall ls d, dict_wf d -> dict_wf (fold_left parse_line ls d)).
  { induction ls as [|l ls IH]; intros d Hd; simpl; [assumption|].
    apply IH, parse_line_wf, Hd. }
  apply G. constructor.
Qed.

Lemma subseq_filter {A : Type} (f : A -> bool) (l : list A) :
  subseq (filter f l) l.
Proof.
  induction l as [|x l IH]; simpl; [constructor|].
  destruct (f x); constructor; assumption.
Qed.

(** ** The missing keys *)

(** C6. The missing keys are the keys of the template that the actual map
    does not have: the same keys, in the order of the template, none of
    them twice. *)
Theorem find_missing_keys_exact (template actual : dict EnvEntry) :
  dict_wf template ->
  (forall k, In k (find_missing_keys template actual)
             <-> In k (dict_keys template) /\ ~ In k (dict_keys actual))
  /\ subseq (find_missing_keys template actual) (dict_keys template)
  /\ NoDup (find_missing_keys template actual).
Proof.
  intros Hwf. unfold find_missing_keys. split; [|split].
  - intros k. rewrite filter_In, negb_true_iff, <- (dict_mem_In k actual).
    destruct (dict_mem k actual); intuition congruence.
  - apply subseq_filter.
  - apply NoDup_filter, Hwf.
Qed.

Lemma find_missing_keys_exact_witness :
  find_missing_keys (parse_text "A=1
B=2
C=3") (parse_text "A=9") = ["B" : str; "C" : str]
  /\ NoDup (find_missing_keys (parse_text "A=1
B=2
C=3") (parse_text "A=9")).
Proof.
  split; [vm_compute; reflexivity|].
  apply (find_missing_keys_exact (parse_text "A=1
B=2
C=3") (parse_text "A=9")).
  apply (parse_file_wf (Some _)).
Defined.

(** ** Validation results *)

(** C9. Every result of [validate_int], [validate_url] and
    [validate_value] carries a message exactly when it is invalid. *)
Theorem validation_result_invariant
    (urlparse : str -> str + (str * str)) (value : str) (hint : option str) :
  result_wf (validate_int value)
  /\ result_wf (validate_url urlparse value)
  /\ result_wf (validate_value urlparse value hint).
Proof.
  assert (V : result_wf valid) by (unfold result_wf; simpl; split; congruence).
  assert (I : forall msg, result_wf (invalid msg))
    by (unfold result_wf; simpl; split; congruence).
  assert (Hint : result_wf (validate_int value))
    by (unfold validate_int; destruct (int_parses value); auto).
  assert (Hurl : result_wf (validate_url urlparse value)).
  { unfold validate_url. destruct (urlparse value) as [e|[scheme netloc]]; [auto|].
    destruct (forallb _ _); auto. }
  repeat split; try apply Hint; try apply Hurl;
    unfold validate_value; destruct hint as [[|x t]|]; try apply V;
    destruct (str_eqb _ "int"); try apply Hint;
    destruct (str_eqb _ "url"); try apply Hurl; apply V.
Qed.

(** ** The reason of an audit issue *)

Lemma placeholder_reason (value : str) :
  is_placeholder value = true ->
  get_placeholder_reason value = "Empty value"
  \/ get_placeholder_reason value = "Contains placeholder text".
Proof.
  unfold is_placeholder, get_placeholder_reason.
  destruct (py_strip value); [auto|]. intros ->. auto.
Qed.

(** The third reason is given to values that are no placeholders only,
    and the auditor asks for the reason of placeholders only. *)
Lemma suspicious_reason (v : str) :
  get_placeholder_reason v = "Suspicious value" <-> is_placeholder v = false.
Proof.
  unfold is_placeholder, get_placeholder_reason.
  destruct (py_strip v); [split; discriminate|].
  destruct (existsb _ _); split; congruence || discriminate.
Qed.

(** C8. Every issue the auditor reports is a placeholder value whose
    reason is "Empty value" or "Contains placeholder text", never
    "Suspicious value". *)
Theorem audit_reason_never_suspicious
    (entries : dict EnvEntry) (k v reason : str) :
  In (k, v, reason) (find_placeholder_values entries) ->
  is_placeholder v = true
  /\ (reason = "Empty value" \/ reason = "Contains placeholder text")
  /\ reason <> "Suspicious value".
Proof.
  induction entries as [|[k' e] entries IH]; simpl; [tauto|].
  destruct (is_placeholder (value e)) eqn:P; [|assumption].
  intros [H|H]; [|auto]. injection H as <- <- <-.
  split; [assumption|].
  destruct (placeholder_reason _ P) as [-> | ->];
    split; auto; intros E; discriminate E.
Qed.

Lemma audit_reason_never_suspicious_witness :
  is_placeholder "YOUR_API_KEY_HERE" = true
  /\ (("Contains placeholder text" : str) = "Empty value"
      \/ ("Contains placeholder text" : str) = "Contains placeholder text")
  /\ ("Contains placeholder text" : str) <> "Suspicious value".
Proof.
  apply (audit_reason_never_suspicious
           (parse_text "API_KEY=YOUR_API_KEY_HERE
PORT=3000
NAME=")
           "API_KEY" "YOUR_API_KEY_HERE" "Contains placeholder text").
  vm_compute. left. reflexivity.
Defined.

(** ** Runs *)

Lemma bind_returned {A B : Type} (c : io A) (k : A -> io B) w b w' :
  bind c k w = (Returned b, w') ->
  exists a w1, c w = (Returned a, w1) /\ k a w1 = (Returned b, w').
Proof.
  unfold bind. destruct (c w) as [[a| |e] w1]; intros H;
    [eauto | discriminate | discriminate].
Qed.

Lemma bind_run {A B : Type} (c : io A) (k : A -> io B) w a w1 :
  c w = (Returned a, w1) -> bind c k w = k a w1.
Proof. unfold bind. intros ->. reflexivity. Qed.

Lemma bind_assoc {A B C : Type} (c : io A) (k : A -> io B) (h : B -> io C) w :
  bind (bind c k) h w = bind c (fun a => bind (k a) h) w.
Proof. unfold bind. destruct (c w) as [[a| |e] w1]; reflexivity. Qed.

Lemma bind_unfold {A B : Type} (c : io A) (k : A -> io B) w :
  bind c k w
  = match c w with
    | (Returned a, w') => k a w'
    | (Blocked, w') => (Blocked, w')
    | (Raised e, w') => (Raised e, w')
    end.
Proof. reflexivity. Qed.

Lemma bind_raised {A B : Type} (c : io A) (k : A -> io B) w e :
  fst (bind c k w) = Raised e ->
  fst (c w) = Raised e
  \/ exists a w1, c w = (Returned a, w1) /\ fst (k a w1) = Raised e.
Proof.
  unfold bind. destruct (c w) as [[a| |e0] w1]; cbn [fst]; intros H;
    [right; eauto | discriminate | left; injection H as ->; reflexivity].
Qed.

Lemma parse_path_run (path : str) (w : world) :
  parse_path path w = (Returned (parse_file (files w path)), w).
Proof. reflexivity. Qed.

Tactic Notation "run_step" hyp(H) "as" ident(a) ident(w) ident(E) :=
  apply bind_returned in H; destruct H as (a & w & E & H).

Lemma backup_keeps_env (env_path backup : str) (w : world) :
  match files w env_path with
  | Some content => if str_eqb env_path backup then Some content
                    else files w env_path
  | None => files w env_path
  end = files w env_path.
Proof.
  destruct (files w env_path) as [content|]; [|reflexivity].
  destruct (str_eqb env_path backup); reflexivity.
Qed.

Lemma lookup_returned key entries w (e : EnvEntry) w' :
  lookup key entries w = (Returned e, w') ->
  dict_get key entries = Some e /\ w' = w.
Proof.
  unfold lookup. destruct (dict_get key entries); intros H.
  - injection H as <- <-. auto.
  - discriminate.
Qed.

Lemma missing_rows_returned (example_entries : dict EnvEntry) :
  forall keys w rows w0,
    missing_rows keys example_entries w = (Returned rows, w0) -> w0 = w.
Proof.
  induction keys as [|k keys IH]; intros w rows w0 H; simpl in H.
  - injection H as <- <-. reflexivity.
  - run_step H as e wa E. apply lookup_returned in E. destruct E as [_ ->].
    run_step H as rows' wb E. injection H as <- <-. eapply IH; eassumption.
Qed.

Lemma missing_rows_run (example_entries : dict EnvEntry) w : forall keys,
  (forall k, In k keys -> dict_mem k example_entries = true) ->
  exists rows, missing_rows keys example_entries w = (Returned rows, w).
Proof.
  induction keys as [|k keys IH]; intros Hin; simpl.
  - eexists. reflexivity.
  - pose proof (Hin k (or_introl eq_refl)) as Hk. unfold dict_mem in Hk.
    unfold lookup. destruct (dict_get k example_entries) as [e|]; [|discriminate].
    destruct IH as [rows IH]; [intros; apply Hin; right; assumption|].
    erewrite bind_run by reflexivity. erewrite bind_run by exact IH.
    eexists. reflexivity.
Qed.

Section SyncProperties.

Variable renders : output -> bool.

Variable urlparse : str -> str + (str * str).

(** *** Printing *)

Lemma print_returned (o : output) (w : world) (u : unit) (w1 : world) :
  print renders o w = (Returned u, w1) ->
  w1 = mkWorld (files w) (answers w) (console w ++ [o]).
Proof.
  unfold print. destruct (holds_text o && negb (renders o)); intros H;
    [discriminate|]. injection H as _ <-. reflexivity.
Qed.

Lemma print_run (o : output) (w : world) :
  holds_text o = false \/ renders o = true ->
  print renders o w
  = (Returned tt, mkWorld (files w) (answers w) (console w ++ [o])).
Proof.
  unfold print. intros [-> | ->]; [reflexivity|].
  cbn [negb]. rewrite andb_false_r. reflexivity.
Qed.

Lemma print_raised (o : output) (w : world) (e : str) :
  fst (print renders o w) = Raised e -> e = "MarkupError".
Proof.
  unfold print. destruct (holds_text o && negb (renders o)); cbn [fst];
    intros H; [injection H as <-; reflexivity | discriminate].
Qed.

(** Printing changes neither a file nor the answers that wait, however it
    ends. *)
Lemma print_keeps (o : output) (w : world) :
  files (snd (print renders o w)) = files w
  /\ answers (snd (print renders o w)) = answers w.
Proof.
  unfold print. destruct (holds_text o && negb (renders o)); split; reflexivity.
Qed.

(** *** The steps of sync that return *)

Lemma display_missing_keys_returned keys (example_entries : dict EnvEntry)
    (w : world) (u : unit) (w1 : world) :
  display_missing_keys renders keys example_entries w = (Returned u, w1) ->
  files w1 = files w /\ answers w1 = answers w.
Proof.
  unfold display_missing_keys. intros H.
  run_step H as rows w0 E. apply missing_rows_returned in E. subst w0.
  run_step H as u1 wa E1. apply print_returned in E1.
  run_step H as u2 wb E2. apply print_returned in E2.
  apply print_returned in H. subst. split; reflexivity.
Qed.

Lemma confirm_sync_returned (w : world) (confirmed : bool) (w2 : world) :
  confirm_sync renders w = (Returned confirmed, w2) ->
  exists a,
    answers w = a :: answers w2
    /\ confirmed = str_eqb (py_lower a) "y" /\ files w2 = files w.
Proof.
  unfold confirm_sync, bind, ask, ret. cbn [holds_text andb].
  destruct (answers w) as [|a rest]; intros H; [discriminate|].
  injection H as <- <-. exists a. auto.
Qed.

Lemma create_backup_returned (env_path : str) (backup_path : option str)
    (w : world) (u : unit) (w3 : world) :
  create_backup renders env_path backup_path w = (Returned u, w3) ->
  answers w3 = answers w
  /\ forall p,
       files w3 p
       = match files w env_path with
         | Some content =>
             if str_eqb p match backup_path with
                          | None => env_path ++ ".bak"
                          | Some q => q
                          end
             then Some content else files w p
         | None => files w p
         end.
Proof.
  unfold create_backup. intros H. run_step H as file w0 E.
  unfold read_path in E. injection E as <- <-.
  destruct (files w env_path) as [content|].
  - destruct (str_eqb _ env_path); [discriminate|].
    run_step H as u1 w1 E. unfold write_path in E. injection E as _ <-.
    apply print_returned in H. subst w3. split; reflexivity.
  - injection H as _ <-. split; reflexivity.
Qed.

Lemma collect_values_returned keys (example_entries : dict EnvEntry)
    (w : world) (res : dict str) (w4 : world) :
  collect_values renders urlparse keys example_entries w = (Returned res, w4) ->
  exists w0,
    files w0 = files w /\ answers w0 = answers w
    /\ collect_loop renders urlparse keys example_entries [] w0
       = (Returned res, w4).
Proof.
  unfold collect_values. intros H.
  run_step H as u1 wa E1. apply print_returned in E1.
  run_step H as u2 wb E2. apply print_returned in E2.
  exists wb. subst. repeat split. exact H.
Qed.

(** Appending and the summary always go through. *)
Lemma sync_finish (env_path : str) (new_entries : dict str) (w4 : world) :
  exists w',
    (append_to_env env_path new_entries >>
     display_summary renders new_entries >> ret true) w4 = (Returned true, w')
    /\ answers w' = answers w4
    /\ forall p,
         files w' p
         = if str_eqb p env_path then
             Some (match files w4 env_path with Some c => c | None => [] end
                   ++ appended_text
                        match files w4 env_path with Some c => c | None => [] end
                        new_entries)
           else files w4 p.
Proof.
  unfold append_to_env, display_summary, bind, read_path, write_path, print, ret.
  cbn [holds_text andb]. eexists. split; [reflexivity|].
  cbn [files answers console]. split; reflexivity.
Qed.

(** *** The prompts *)

Lemma prompt_loop_valid prompt_text validation_type : forall pending w v w',
  prompt_loop renders urlparse prompt_text validation_type pending w
  = (Returned v, w') ->
  is_valid (validate_value urlparse v validation_type) = true
  /\ files w' = files w.
Proof.
  induction pending as [|a pending IH]; intros w v w' H; cbn [prompt_loop] in H;
    destruct (renders (OutPrompt prompt_text)); cbn [negb] in H;
    try discriminate.
  destruct (is_valid (validate_value urlparse a validation_type)) eqn:V.
  - injection H as <- <-. auto.
  - destruct (renders (OutInvalid _)); cbn [negb] in H; [|discriminate].
    apply IH in H. assumption.
Qed.

(** Each value collected for a key passed the validation of that key's
    hint, and collecting touches no file. *)
Lemma collect_loop_valid example_entries : forall missing_keys acc w res w',
  collect_loop renders urlparse missing_keys example_entries acc w
  = (Returned res, w') ->
  (forall k v, In (k, v) acc ->
     exists e, dict_get k example_entries = Some e
       /\ is_valid (validate_value urlparse v
                      (extract_validation_type (comment e))) = true) ->
  (forall k v, In (k, v) res ->
     exists e, dict_get k example_entries = Some e
       /\ is_valid (validate_value urlparse v
                      (extract_validation_type (comment e))) = true)
  /\ files w' = files w.
Proof.
  induction missing_keys as [|key keys IH]; intros acc w res w' H Hacc; simpl in H.
  - injection H as <- <-. auto.
  - run_step H as e w1 E. apply lookup_returned in E. destruct E as [Hget ->].
    run_step H as v w2 E. unfold prompt_for_value in E.
    apply prompt_loop_valid in E. destruct E as [Hv Hf].
    apply IH in H.
    + destruct H as [Hres Hf']. split; [assumption | congruence].
    + intros k v0 Hin. apply In_dict_set in Hin.
      destruct Hin as [[-> ->]|Hin]; [eauto | auto].
Qed.

(** *** A run that made changes *)

(** A run of [sync] that returns with changes made went through the backup,
    collected the values from there, and appended them. *)
Lemma sync_returned_true (example_path env_path : str)
    (backup_path : option str) (w w' : world) :
  sync renders urlparse example_path env_path backup_path w
  = (Returned true, w') ->
  exists new_entries w3 w4,
    (forall p,
       files w3 p
       = match files w env_path with
         | Some content =>
             if str_eqb p match backup_path with
                          | None => env_path ++ ".bak"
                          | Some q => q
                          end
             then Some content else files w p
         | None => files w p
         end)
    /\ collect_loop renders urlparse
         (find_missing_keys (parse_file (files w example_path))
                            (parse_file (files w env_path)))
         (parse_file (files w example_path)) [] w3
       = (Returned new_entries, w4)
    /\ forall p,
         files w' p
         = if str_eqb p env_path then
             Some (match files w4 env_path with Some c => c | None => [] end
                   ++ appended_text
                        match files w4 env_path with Some c => c | None => [] end
                        new_entries)
           else files w4 p.
Proof.
  unfold sync. intros H.
  run_step H as there w0 E. unfold path_exists in E. injection E as <- <-.
  destruct (files w example_path) as [example|] eqn:Hex; cbn [negb] in H;
    [|run_step H as u w0 E; discriminate].
  run_step H as example_entries w0 E. rewrite parse_path_run in E.
  injection E as <- <-.
  run_step H as env_entries w0 E. rewrite parse_path_run in E.
  injection E as <- <-. rewrite Hex in H.
  destruct (find_missing_keys _ _) as [|m ms] eqn:Hmiss;
    [run_step H as u w0 E; discriminate|].
  run_step H as u1 w1 E1. apply display_missing_keys_returned in E1.
  destruct E1 as [F1 A1].
  run_step H as confirmed w2 E2. apply confirm_sync_returned in E2.
  destruct E2 as (a & A2 & -> & F2).
  destruct (str_eqb (py_lower a) "y"); cbn [negb] in H;
    [|run_step H as u w0 E; discriminate].
  run_step H as u3 w3 E3. apply create_backup_returned in E3.
  destruct E3 as [A3 F3]. rewrite F2, F1 in F3.
  run_step H as new_entries w4 E4. apply collect_values_returned in E4.
  destruct E4 as (w0 & F0 & A0 & E4).
  destruct (sync_finish env_path new_entries w4) as (w5 & E5 & _ & F5).
  rewrite E5 in H. injection H as <-.
  exists new_entries, w0, w4. split; [|split; [exact E4 | exact F5]].
  intros p. rewrite F0. apply F3.
Qed.

(** C4. When a run of [sync] returns with changes made, the file gained
    the formatted entries after its former content, and every value among
    them was accepted by [validate_value] for the hint of its key in the
    template. *)
Theorem sync_appends_only_accepted_values
    (example_path env_path : str) (backup_path : option str) (w w' : world) :
  sync renders urlparse example_path env_path backup_path w
  = (Returned true, w') ->
  exists new_entries,
    let old := match files w env_path with Some c => c | None => [] end in
    files w' env_path = Some (old ++ appended_text old new_entries)
    /\ forall k v, In (k, v) new_entries ->
         exists e,
           dict_get k (parse_file (files w example_path)) = Some e
           /\ is_valid (validate_value urlparse v
                          (extract_validation_type (comment e))) = true.
Proof.
  intros H.
  destruct (sync_returned_true _ _ _ _ _ H) as (new_entries & w3 & w4 & F3 & E4 & F5).
  apply collect_loop_valid in E4; [|intros k v []].
  destruct E4 as [Hvalid F4].
  exists new_entries. split; [|exact Hvalid].
  cbv zeta. rewrite F5, str_eqb_refl, F4, F3, backup_keeps_env. reflexivity.
Qed.

(** C5. When no key is missing, or when the missing keys were shown and
    the answer to the confirmation is not a yes, [sync] returns "no
    changes" and every file is as it was.  A template that is not there
    counts as one with no key, its message being one that can be shown. *)
Theorem sync_without_changes
    (example_path env_path : str) (backup_path : option str) (w : world) :
  (files w example_path = None ->
   renders (OutExampleNotFound example_path) = true) ->
  find_missing_keys (parse_file (files w example_path))
                    (parse_file (files w env_path)) = []
  \/ (fst (display_missing_keys renders
             (find_missing_keys (parse_file (files w example_path))
                                (parse_file (files w env_path)))
             (parse_file (files w example_path)) w) = Returned tt
      /\ exists a rest,
           answers w = a :: rest /\ str_eqb (py_lower a) "y" = false) ->
  fst (sync renders urlparse example_path env_path backup_path w)
  = Returned false
  /\ files (snd (sync renders urlparse example_path env_path backup_path w))
     = files w.
Proof.
  intros Hshown H. unfold sync.
  erewrite bind_run by (unfold path_exists; reflexivity).
  destruct (files w example_path) as [example|] eqn:Hex; cbn [negb].
  2:{ erewrite bind_run by (apply print_run; right; apply Hshown; reflexivity).
      split; reflexivity. }
  erewrite bind_run by apply parse_path_run.
  erewrite bind_run by apply parse_path_run.
  rewrite Hex. cbn [parse_file] in *.
  destruct (find_missing_keys _ _) as [|m ms] eqn:Hmiss.
  { erewrite bind_run by (apply print_run; left; reflexivity).
    split; reflexivity. }
  destruct H as [H|(D & a & rest & Ha & Hno)]; [discriminate|].
  destruct (display_missing_keys renders (m :: ms) (parse_text example) w)
    as [r w1] eqn:E1.
  cbn [fst] in D. subst r.
  destruct (display_missing_keys_returned _ _ _ _ _ E1) as [F1 A1].
  erewrite bind_run by exact E1.
  erewrite bind_run.
  2:{ unfold confirm_sync, bind, ask, ret. cbn [holds_text andb].
      rewrite A1, Ha. reflexivity. }
  rewrite Hno. cbn [negb].
  erewrite bind_run by (apply print_run; left; reflexivity).
  split; [reflexivity | exact F1].
Qed.

End SyncProperties.

Lemma sync_appends_only_accepted_values_witness :
  exists new_entries,
    let w := demo_world ["y" : str; "abc" : str; "8080" : str] in
    let w' := snd (sync demo_renders demo_urlparse ".env.example" ".env" None w) in
    let old := match files w ".env" with Some c => c | None => [] end in
    files w' ".env" = Some (old ++ appended_text old new_entries)
    /\ forall k v, In (k, v) new_entries ->
         exists e,
           dict_get k (parse_file (files w ".env.example")) = Some e
           /\ is_valid (validate_value demo_urlparse v
                          (extract_validation_type (comment e))) = true.
Proof.
  apply (sync_appends_only_accepted_values demo_renders demo_urlparse
           ".env.example" ".env"
           None (demo_world ["y" : str; "abc" : str; "8080" : str])).
  vm_compute. reflexivity.
Defined.

Lemma sync_without_changes_witness :
  fst (sync demo_renders demo_urlparse ".env.example" ".env" None
         (demo_world ["n" : str]))
    = Returned false
  /\ files (snd (sync demo_renders demo_urlparse ".env.example" ".env" None
                   (demo_world ["n" : str])))
     = files (demo_world ["n" : str]).
Proof.
  apply (sync_without_changes demo_renders demo_urlparse ".env.example" ".env"
           None (demo_world ["n" : str])).
  - intros H. vm_compute in H. discriminate H.
  - right. split; [vm_compute; reflexivity|].
    exists ("n" : str), []. split; reflexivity.
Defined.

(** The run of the first witness: the wrong answer is asked again, and the
    file ends with the marker and the new entry. *)
Example demo_sync_run :
  let w' := snd (sync demo_renders demo_urlparse ".env.example" ".env" None
                   (demo_world ["y" : str; "abc" : str; "8080" : str])) in
  files w' ".env" = Some ("NAME=me

# Added by Henvdall
PORT=8080
" : str)
  /\ files w' ".env.bak" = Some ("NAME=me
" : str)
  /\ In (OutInvalid (Some ("'abc' is not a valid integer" : str))) (console w').
Proof. vm_compute. intuition. Qed.

(** Runs that end in an error of a library: a value of the template that
    rich cannot read as markup, shown in the table before anything is
    asked; a backup that would be written over the file itself; and an
    answer that is rejected with a message that cannot be read. *)
Example sync_stops_on_unreadable_value :
  let w := mkWorld (fun p => if str_eqb p ".env.example"
                             then Some ("K=[/red]" : str) else None)
             ["n" : str] [] in
  sync demo_renders demo_urlparse ".env.example" ".env" None w
  = (Raised "MarkupError",
     mkWorld (files w) ["n" : str] [OutBlank]).
Proof. vm_compute. reflexivity. Qed.

Example sync_stops_on_backup_over_file :
  let w := demo_world ["y" : str; "8080" : str] in
  fst (sync demo_renders demo_urlparse ".env.example" ".env"
         (Some (".env" : str)) w) = Raised "SameFileError"
  /\ files (snd (sync demo_renders demo_urlparse ".env.example" ".env"
                   (Some (".env" : str)) w)) ".env"
     = files w ".env".
Proof. vm_compute. split; reflexivity. Qed.

Example prompt_stops_on_unreadable_answer :
  fst (prompt_for_value demo_renders demo_urlparse "PORT" "3000"
         (Some ("int" : str)) (demo_world ["[/x]" : str; "8080" : str]))
  = Raised "MarkupError".
Proof. vm_compute. reflexivity. Qed.

(** ** The validation hint *)

Lemma nonempty_length (w : str) : 1 <= List.length w <-> w <> [].
Proof.
  destruct w; simpl; split; intros H; try congruence; try lia.
Qed.

Lemma matches_hint pos t rest g g' :
  matches HINT_PATTERN pos t rest g g' <->
  exists w, hint_token w t /\ g' = set_group 1 w g.
Proof.
  unfold HINT_PATTERN, hint_token, plus. rewrite matches_Cat. split.
  - intros (w1 & w2 & g1 & -> & M1 & M2).
    apply matches_Chr in M1. destruct M1 as (x & -> & Hx & ->).
    apply is_char_eq in Hx. subst x.
    apply matches_Cat in M2. destruct M2 as (w & w3 & g2 & -> & M2 & M3).
    apply matches_Grp in M2. destruct M2 as (g3 & M2 & ->).
    apply matches_Rep in M2. destruct M2 as (Hw & Hn & ->).
    apply matches_Chr in M3. destruct M3 as (y & -> & Hy & ->).
    apply is_char_eq in Hy. subst y.
    exists w. repeat split; auto. apply nonempty_length; assumption.
  - intros (w & (-> & Hn & Hw) & ->).
    exists ["("%char], (w ++ ")"), g. split; [reflexivity|]. split.
    + apply matches_Chr. exists "("%char. auto.
    + apply matches_Cat. exists w, [")"%char], (set_group 1 w g).
      split; [reflexivity|]. split.
      * apply matches_Grp. exists g. split; [|reflexivity].
        apply matches_Rep. repeat split; auto. apply nonempty_length; assumption.
      * apply matches_Chr. exists ")"%char. auto.
Qed.

(** A run of word characters ends where the closing parenthesis is. *)
Lemma word_run_unique : forall (w w' post post' : str),
  forallb is_word w = true -> forallb is_word w' = true ->
  w ++ ")" ++ post = w' ++ ")" ++ post' -> w = w'.
Proof.
  induction w as [|x w IH]; intros [|y w'] post post' Hw Hw' E; simpl in *.
  - reflexivity.
  - injection E as <- _. discriminate.
  - injection E as -> _. discriminate.
  - injection E as <- E. apply andb_true_iff in Hw, Hw'.
    f_equal. eapply IH; [apply Hw | apply Hw' | exact E].
Qed.

Lemma prefix_same_length {A : Type} : forall (a b c d : list A),
  a ++ c = b ++ d -> List.length a = List.length b -> a = b /\ c = d.
Proof.
  induction a as [|x a IH]; intros [|y b] c d E L; simpl in *; try discriminate.
  - auto.
  - injection E as <- E. injection L as L. destruct (IH _ _ _ E L) as [-> ->]. auto.
Qed.

(** C3, as the code has it.  [extract_validation_type] returns the word of
    the first token "(word)" of the comment as it is written, in its own
    case, and nothing when the comment is absent or empty or has no such
    token. *)
Theorem extract_validation_type_first_token (comment : str) :
  (forall w, extract_validation_type (Some comment) = Some w
             <-> first_token w comment)
  /\ (extract_validation_type (Some comment) = None
      <-> ~ exists w, occurs (hint_token w) comment)
  /\ extract_validation_type None = None.
Proof.
  assert (Search : forall w,
            (exists m, re_search HINT_PATTERN comment = Some m /\ m 1 = Some w)
            -> first_token w comment).
  { intros w (m & Hs & Hm). apply search_from_first in Hs.
    destruct Hs as (pre & t & post & E & M & First).
    apply matches_hint in M. destruct M as (w0 & Tok & ->).
    unfold set_group in Hm. simpl in Hm. injection Hm as ->.
    exists pre, t, post. repeat split; try apply Tok; auto.
    intros pre2 t2 post2 w2 E2 Tok2. eapply First; [exact E2|].
    apply matches_hint. exists w2. split; [exact Tok2 | reflexivity]. }
  assert (Found : found (re_search HINT_PATTERN comment) = true
                  <-> exists w, occurs (hint_token w) comment).
  { unfold re_search. rewrite search_from_found. split.
    - intros (pre & t & post & g' & E & M). apply matches_hint in M.
      destruct M as (w & Tok & _). exists w, pre, t, post. auto.
    - intros (w & pre & t & post & E & Tok). exists pre, t, post, (set_group 1 w no_groups).
      split; [exact E|]. apply matches_hint. exists w. auto. }
  assert (Group : forall m, re_search HINT_PATTERN comment = Some m ->
                    exists w, m 1 = Some w).
  { intros m Hs. apply search_from_first in Hs.
    destruct Hs as (pre & t & post & E & M & _).
    apply matches_hint in M. destruct M as (w & _ & ->). exists w. reflexivity. }
  assert (Nil : comment = [] -> re_search HINT_PATTERN comment = None)
    by (intros ->; reflexivity).
  assert (Unfold : extract_validation_type (Some comment)
                   = match re_search HINT_PATTERN comment with
                     | Some m => m 1
                     | None => None
                     end).
  { destruct comment; [rewrite Nil|]; reflexivity. }
  split; [|split; [|reflexivity]].
  - intros w. rewrite Unfold. split.
    + destruct (re_search HINT_PATTERN comment) as [m|] eqn:Hs; [|discriminate].
      intros Hm. apply Search. eauto.
    + intros (pre & t & post & E & Tok & First).
      destruct (re_search HINT_PATTERN comment) as [m|] eqn:Hs.
      * destruct (Group m eq_refl) as [w' Hm]. rewrite Hm. f_equal.
        destruct (Search w' (ex_intro _ m (conj eq_refl Hm)))
          as (pre' & t' & post' & E' & Tok' & First').
        assert (L : List.length pre' = List.length pre).
        { apply Nat.le_antisymm; [eapply First' | eapply First]; eassumption. }
        rewrite E' in E. destruct (prefix_same_length _ _ _ _ E L) as [_ Et].
        destruct Tok as (-> & _ & Hw), Tok' as (-> & _ & Hw').
        simpl in Et. injection Et as Et. rewrite <- !app_assoc in Et.
        eapply word_run_unique; eassumption.
      * exfalso. assert (F : found None = true)
          by (apply Found; exists w, pre, t, post; auto).
        discriminate F.
  - rewrite Unfold, <- Found.
    destruct (re_search HINT_PATTERN comment) as [m|] eqn:Hs; simpl.
    + destruct (Group m eq_refl) as [w ->]. split; [discriminate | congruence].
    + split; [discriminate | reflexivity].
Qed.

(** C3, as it is stated, fails: the word is not put in lower case. *)
Lemma extract_validation_type_keeps_case :
  first_token "INT" "(INT)"
  /\ extract_validation_type (Some ("(INT)" : str)) = Some ("INT" : str)
  /\ extract_validation_type (Some ("(INT)" : str)) <> Some (py_lower "INT").
Proof.
  assert (E : extract_validation_type (Some ("(INT)" : str)) = Some ("INT" : str))
    by (vm_compute; reflexivity).
  split; [|split; [exact E|]].
  - exists [], ("(INT)" : str), []. split; [reflexivity|]. split.
    + repeat split. discriminate.
    + intros; simpl; lia.
  - rewrite E. vm_compute. discriminate.
Qed.

(** The hint is put in lower case where it is used: [validate_value]
    treats "(INT)" as "(int)". *)
Lemma validate_value_hint_case urlparse (v : str) :
  validate_value urlparse v (Some ("INT" : str)) = validate_int v.
Proof. reflexivity. Qed.

(** ** Stripping *)

Lemma last_after {A : Type} (a b : list A) (d : A) :
  b <> [] -> last (a ++ b) d = last b d.
Proof.
  intros Hb. induction a as [|x a IH]; simpl; [reflexivity|].
  rewrite IH. destruct (a ++ b) eqn:E; [|reflexivity].
  apply app_eq_nil in E. destruct E; contradiction.
Qed.

Lemma lstrip_split (p : ascii -> bool) (s : str) :
  exists a, s = a ++ lstrip p s /\ forallb p a = true.
Proof.
  induction s as [|x s (a & E & Ha)]; simpl.
  - exists []. auto.
  - destruct (p x) eqn:Hx.
    + exists (x :: a). simpl. rewrite Hx, Ha. split; [congruence | reflexivity].
    + exists []. auto.
Qed.

Lemma rstrip_split (p : ascii -> bool) (s : str) :
  exists b, s = rstrip p s ++ b /\ forallb p b = true.
Proof.
  induction s as [|x s (b & E & Hb)]; simpl.
  - exists []. auto.
  - destruct (rstrip p s) as [|y t] eqn:R.
    + simpl in E. subst b. destruct (p x) eqn:Hx.
      * exists (x :: s). simpl. rewrite Hx, Hb. auto.
      * exists s. auto.
    + exists b. split; [simpl; f_equal; exact E | assumption].
Qed.

Lemma lstrip_incl p (s : str) x : In x (lstrip p s) -> In x s.
Proof.
  destruct (lstrip_split p s) as (a & E & _). intros H. rewrite E.
  apply in_or_app. auto.
Qed.

Lemma rstrip_incl p (s : str) x : In x (rstrip p s) -> In x s.
Proof.
  destruct (rstrip_split p s) as (b & E & _). intros H. rewrite E.
  apply in_or_app. auto.
Qed.

Lemma py_strip_incl (s : str) x : In x (py_strip s) -> In x s.
Proof. intros H. apply (lstrip_incl is_space), (rstrip_incl is_space), H. Qed.

Lemma lstrip_head p (s : str) x t : lstrip p s = x :: t -> p x = false.
Proof.
  induction s as [|y s IH]; simpl; [discriminate|].
  destruct (p y) eqn:Hy; [assumption|]. intros E. injection E as <- _. assumption.
Qed.

Lemma rstrip_last p : forall (s : str) t x, rstrip p s = t ++ [x] -> p x = false.
Proof.
  induction s as [|y s IH]; intros t x; simpl.
  - destruct t; discriminate.
  - destruct (rstrip p s) as [|z u] eqn:R.
    + destruct (p y) eqn:Hy; [destruct t; discriminate|].
      destruct t as [|? [|? ?]]; simpl; intros E; try discriminate.
      injection E as <-. assumption.
    + destruct t as [|y' t]; simpl; intros E; [discriminate|].
      injection E as _ E. eapply IH. exact E.
Qed.

Lemma lstrip_id p (s : str) :
  match s with x :: _ => p x = false | [] => True end -> lstrip p s = s.
Proof. destruct s as [|x s]; simpl; [reflexivity | intros ->; reflexivity]. Qed.

Lemma rstrip_id p : forall (s : str) x, p x = false -> rstrip p (s ++ [x]) = s ++ [x].
Proof.
  induction s as [|y s IH]; intros x Hx; simpl.
  - rewrite Hx. reflexivity.
  - rewrite (IH x Hx). destruct (s ++ [x]) eqn:E; [|reflexivity].
    destruct s; discriminate.
Qed.

Lemma rstrip_none p (s : str) :
  forallb (fun c => negb (p c)) s = true -> rstrip p s = s.
Proof.
  induction s as [|x s IH]; simpl; [reflexivity|].
  intros H. apply andb_true_iff in H. destruct H as [Hx Hs].
  rewrite (IH Hs). apply negb_true_iff in Hx. rewrite Hx.
  destruct s; reflexivity.
Qed.

Lemma lstrip_none_left p (b : str) : forallb p b = true -> lstrip p b = [].
Proof.
  induction b as [|y b IH]; simpl; [reflexivity|].
  intros H. apply andb_true_iff in H. destruct H as [-> H]. auto.
Qed.

(** Stripping white space off [a ++ core ++ b] gives [core], when [core]
    neither starts nor ends with white space. *)
Lemma strip_core p (a core b : str) :
  forallb p a = true -> forallb p b = true ->
  match core with x :: _ => p x = false | [] => True end ->
  p (last core " "%char) = false \/ core = [] ->
  rstrip p (lstrip p (a ++ core ++ b)) = core.
Proof.
  intros Ha Hb Hhead Hlast.
  assert (L : lstrip p (a ++ core ++ b) = lstrip p (core ++ b)).
  { clear - Ha. induction a as [|x a IH]; simpl; [reflexivity|].
    simpl in Ha. apply andb_true_iff in Ha. destruct Ha as [-> Ha]. auto. }
  assert (Rb : forall c : str, rstrip p (c ++ b) = rstrip p c).
  { clear - Hb. intros c. induction c as [|x c IH]; simpl.
    - induction b as [|y b IHb]; simpl; [reflexivity|].
      simpl in Hb. apply andb_true_iff in Hb. destruct Hb as [Hy Hb].
      rewrite (IHb Hb), Hy. reflexivity.
    - rewrite IH. reflexivity. }
  rewrite L. destruct core as [|x core].
  - simpl. clear - Hb. induction b as [|y b IH]; simpl; [reflexivity|].
    simpl in Hb. apply andb_true_iff in Hb. destruct Hb as [Hy Hb].
    rewrite Hy. apply IH, Hb.
  - simpl. rewrite Hhead. change (x :: core ++ b) with ((x :: core) ++ b).
    rewrite Rb. destruct Hlast as [Hl|]; [|discriminate].
    destruct (exists_last (l := x :: core)) as (t & z & E); [discriminate|].
    rewrite E in *. rewrite last_last in Hl. apply rstrip_id. assumption.
Qed.

(** ** The line pattern *)

(** What a match of the line pattern looks like: white space, the key,
    white space, the equals sign, white space, a value without [#], and
    either nothing more or a comment; the end of the line follows. *)
Lemma env_line_inv pos w rest g g' :
  matches ENV_LINE_PATTERN pos w rest g g' ->
  exists ws1 k ws2 ws3 v tail,
    pos = 0 /\ w = ws1 ++ k ++ ws2 ++ "="%char :: ws3 ++ v ++ tail /\
    forallb is_space ws1 = true /\ is_identifier k = true /\
    forallb is_space ws2 = true /\ forallb is_space ws3 = true /\
    forallb not_hash v = true /\ at_end rest = true /\
    g' 1 = Some k /\ g' 2 = Some v /\
    ((tail = [] /\ g' 3 = g 3) \/
     exists ws4 ws5 c,
       tail = ws4 ++ "#"%char :: ws5 ++ c /\ forallb is_space ws4 = true /\
       forallb is_space ws5 = true /\ forallb dot c = true /\ g' 3 = Some c).
Proof.
  unfold ENV_LINE_PATTERN, star, star_lazy. intros M.
  apply matches_Cat in M. destruct M as (w0 & wa & g0 & -> & M0 & M).
  apply matches_Bos in M0. destruct M0 as (-> & -> & ->).
  apply matches_Cat in M. destruct M as (ws1 & wb & g1 & -> & M1 & M).
  apply matches_Rep in M1. destruct M1 as (Hws1 & _ & ->).
  apply matches_Cat in M. destruct M as (k & wc & g2 & -> & Mk & M).
  apply matches_Grp in Mk. destruct Mk as (g3 & Mk & ->).
  apply matches_Cat in Mk. destruct Mk as (k0 & kt & g4 & -> & Mk0 & Mkt).
  apply matches_Chr in Mk0. destruct Mk0 as (x & -> & Hx & ->).
  apply matches_Rep in Mkt. destruct Mkt as (Hkt & _ & ->).
  apply matches_Cat in M. destruct M as (ws2 & wd & g5 & -> & M2 & M).
  apply matches_Rep in M2. destruct M2 as (Hws2 & _ & ->).
  apply matches_Cat in M. destruct M as (eq & we & g6 & -> & Me & M).
  apply matches_Chr in Me. destruct Me as (y & -> & Hy & ->).
  apply is_char_eq in Hy. subst y.
  apply matches_Cat in M. destruct M as (ws3 & wf & g7 & -> & M3 & M).
  apply matches_Rep in M3. destruct M3 as (Hws3 & _ & ->).
  apply matches_Cat in M. destruct M as (v & wg & g8 & -> & Mv & M).
  apply matches_Grp in Mv. destruct Mv as (g9 & Mv & ->).
  apply matches_Rep in Mv. destruct Mv as (Hv & _ & ->).
  apply matches_Cat in M. destruct M as (tail & wh & g10 & -> & Mt & M).
  apply matches_Eos in M. destruct M as (Hend & -> & ->).
  exists ws1, ([x] ++ kt), ws2, ws3, v, tail.
  split; [reflexivity|]. split.
  { simpl. rewrite ?app_nil_r, <- ?app_assoc. reflexivity. }
  split; [assumption|]. split; [simpl; rewrite Hx, Hkt; reflexivity|].
  do 4 (split; [assumption|]).
  apply matches_Opt in Mt. destruct Mt as [Mt | [-> ->]].
  - apply matches_Cat in Mt. destruct Mt as (ws4 & wi & g11 & -> & M4 & Mt).
    apply matches_Rep in M4. destruct M4 as (Hws4 & _ & ->).
    apply matches_Cat in Mt. destruct Mt as (h & wj & g12 & -> & Mh & Mt).
    apply matches_Chr in Mh. destruct Mh as (z & -> & Hz & ->).
    apply is_char_eq in Hz. subst z.
    apply matches_Cat in Mt. destruct Mt as (ws5 & c & g13 & -> & M5 & Mc).
    apply matches_Rep in M5. destruct M5 as (Hws5 & _ & ->).
    apply matches_Grp in Mc. destruct Mc as (g14 & Mc & ->).
    apply matches_Rep in Mc. destruct Mc as (Hc & _ & ->).
    split; [reflexivity|]. split; [reflexivity|].
    right. exists ws4, ws5, c. auto.
  - split; [reflexivity|]. split; [reflexivity|]. left. auto.
Qed.

Lemma re_match_sound r line m :
  re_match r line = Some m ->
  exists w rest, line = w ++ rest /\ matches r 0 w rest no_groups m.
Proof.
  unfold re_match. intros H. apply rmatch_sound in H.
  destruct H as (w & rest & g' & E & M & A). injection A as ->. eauto.
Qed.

Lemma re_match_complete r w rest g' :
  matches r 0 w rest no_groups g' -> found (re_match r (w ++ rest)) = true.
Proof.
  intros M. unfold re_match. eapply rmatch_complete; [exact M | reflexivity].
Qed.

(** Groups 1 and 2 take part in every match of the line pattern. *)
Lemma env_line_groups line m :
  re_match ENV_LINE_PATTERN line = Some m ->
  exists k v, m 1 = Some k /\ m 2 = Some v /\
              is_identifier k = true /\ forallb not_hash v = true.
Proof.
  intros H. apply re_match_sound in H. destruct H as (w & rest & _ & M).
  apply env_line_inv in M.
  destruct M as (ws1 & k & ws2 & ws3 & v & tail & _ & _ & _ & Hk & _ & _ & Hv
                 & _ & G1 & G2 & _).
  eauto 7.
Qed.

(** ** Values never hold a [#] *)

Lemma unquote_value_incl (s : str) x : In x (unquote_value s) -> In x s.
Proof.
  unfold unquote_value. destruct (2 <=? List.length s); [|auto].
  destruct (_ || _); [|auto].
  intros H. destruct s as [|y s]; simpl in H; [contradiction|].
  right. clear - H. induction s as [|z s IH]; simpl in *; [contradiction|].
  destruct s; [contradiction|]. destruct H as [H|H]; auto.
Qed.

Lemma not_hash_forall (v : str) :
  forallb not_hash v = true -> ~ In "#"%char v.
Proof.
  intros H Hin. rewrite forallb_forall in H. specialize (H _ Hin).
  discriminate H.
Qed.

Lemma parse_line_no_hash (entries : dict EnvEntry) (line : str) :
  Forall (fun kv => contains "#" (value (snd kv)) = false) entries ->
  Forall (fun kv => contains "#" (value (snd kv)) = false)
         (parse_line entries line).
Proof.
  intros H. unfold parse_line.
  destruct (py_strip (rstrip (is_char LF) line)); [assumption|].
  destruct (startswith _ _); [assumption|].
  destruct (re_match _ _) as [m|] eqn:Hm; [|assumption].
  destruct (env_line_groups _ _ Hm) as (k & v & G1 & G2 & _ & Hv).
  unfold group. rewrite G1, G2.
  assert (Hnew : contains "#" (unquote_value (py_strip v)) = false).
  { apply contains_false. intros Hin.
    apply unquote_value_incl, py_strip_incl in Hin.
    exact (not_hash_forall v Hv Hin). }
  set (e := mkEnvEntry k _ _).
  assert (He : contains "#" (value e) = false) by exact Hnew.
  clearbody e. clear - H He.
  induction entries as [|[k' e'] entries IH]; simpl.
  - repeat constructor. assumption.
  - inversion H as [|? ? Hhead Htail]; subst.
    destruct (str_eqb k' k); constructor; simpl; auto.
Qed.

(** C10. Whatever the text of the file, no value of the parsed map holds
    the character [#]. *)
Theorem parsed_values_have_no_hash (file : option str) :
  Forall (fun kv => contains "#" (value (snd kv)) = false) (parse_file file).
Proof.
  destruct file as [text|]; [|constructor]. unfold parse_file, parse_text.
  generalize (file_lines (universal_newlines text)).
  assert (G : forall ls d,
            Forall (fun kv => contains "#" (value (snd kv)) = false) d ->
            Forall (fun kv => contains "#" (value (snd kv)) = false)
                   (fold_left parse_line ls d)).
  { induction ls as [|l ls IH]; intros d Hd; simpl; [assumption|].
    apply IH, parse_line_no_hash, Hd. }
  intros ls. apply G. constructor.
Qed.

(** A value with a [#] is written in quotes, and is not read back. *)
Example hash_value_is_lost :
  format_entry "KEY" "a#b" = "KEY=" ++ DQUOTE :: "a#b" ++ [DQUOTE]
  /\ map (fun kv => value (snd kv)) (parse_text (format_entry "KEY" "a#b"))
     = [DQUOTE :: "a"].
Proof. vm_compute. split; reflexivity. Qed.

(** ** Integers *)

(** A fact about all 256 characters, by cases. *)
Ltac by_char c :=
  destruct c as [[] [] [] [] [] [] [] []]; vm_compute;
  solve [reflexivity | discriminate | intros; discriminate | intros; reflexivity
        | tauto | intuition discriminate].

Lemma digit_not_int_space c : is_digit c = true -> int_space c = false.
Proof. by_char c. Qed.

Lemma digit_not_sign c : is_digit c = true -> int_sign c = false.
Proof. by_char c. Qed.

Lemma sign_not_int_space c : int_sign c = true -> int_space c = false.
Proof. by_char c. Qed.

Lemma int_digits_run : forall (d r : str) b,
  forallb is_digit d = true -> d <> [] ->
  int_digits b (d ++ r) = int_digits true r.
Proof.
  induction d as [|x d IH]; intros r b Hd Hn; [congruence|].
  simpl in *. apply andb_true_iff in Hd. destruct Hd as [Hx Hd]. rewrite Hx.
  destruct d as [|y d]; [reflexivity|]. apply IH; [assumption | discriminate].
Qed.

Lemma digit_groups_accepted (s : str) :
  digit_groups s -> forall b, int_digits b s = true.
Proof.
  induction 1 as [d Hn Hd|d s Hn Hd Hs IH]; intros b.
  - rewrite <- (app_nil_r d). rewrite int_digits_run; auto.
  - rewrite int_digits_run by assumption. simpl. apply IH.
Qed.

Lemma int_digits_inv : forall (s : str) b,
  int_digits b s = true ->
  exists d,
    forallb is_digit d = true /\ (b = false -> d <> []) /\
    (s = d \/ exists s', s = d ++ "_" ++ s' /\ digit_groups s').
Proof.
  induction s as [|x s IH]; intros b H; simpl in H.
  - exists []. subst b. repeat split; auto. discriminate.
  - destruct (is_digit x) eqn:Hx.
    + destruct (IH _ H) as (d & Hd & _ & Hs). exists (x :: d). simpl.
      rewrite Hx, Hd. repeat split; [discriminate|].
      destruct Hs as [-> | (s' & -> & Hs')]; [left | right; exists s']; auto.
    + destruct (is_char "_" x) eqn:Hu; [|discriminate].
      apply is_char_eq in Hu. subst x.
      apply andb_true_iff in H. destruct H as [-> H].
      destruct (IH _ H) as (d & Hd & Hn & Hs).
      exists []. repeat split; [discriminate|]. right. exists s. split; [reflexivity|].
      destruct Hs as [-> | (s' & -> & Hs')].
      * apply DG_last; auto.
      * apply DG_more; auto.
Qed.

Lemma int_digits_groups (s : str) :
  int_digits false s = true <-> digit_groups s.
Proof.
  split; [|intros H; apply digit_groups_accepted, H].
  intros H. destruct (int_digits_inv _ _ H) as (d & Hd & Hn & Hs).
  destruct Hs as [-> | (s' & -> & Hs')].
  - apply DG_last; auto.
  - apply DG_more; auto.
Qed.

Lemma digit_groups_ends (s : str) :
  digit_groups s ->
  exists x t, s = x :: t /\ is_digit x = true /\ is_digit (last s " "%char) = true.
Proof.
  assert (Run : forall d : str, d <> [] -> forallb is_digit d = true ->
            exists x t, d = x :: t /\ is_digit x = true
                        /\ is_digit (last d " "%char) = true).
  { intros d Hn Hd. destruct d as [|x t]; [congruence|]. exists x, t.
    simpl in Hd. apply andb_true_iff in Hd. destruct Hd as [Hx Ht].
    repeat split; auto. rewrite forallb_forall in Ht.
    destruct (exists_last (l := x :: t)) as (u & z & E); [discriminate|].
    rewrite E, last_last. destruct u as [|y u]; simpl in E.
    - injection E as <- _. assumption.
    - injection E as _ E. apply Ht. rewrite E. apply in_or_app. simpl; auto. }
  induction 1 as [d Hn Hd|d s Hn Hd Hs IH]; [auto|].
  destruct (Run d Hn Hd) as (x & t & -> & Hx & _).
  destruct IH as (y & u & -> & _ & Hl).
  exists x, (t ++ "_" ++ y :: u). repeat split; auto.
  replace ((x :: t) ++ "_" ++ y :: u) with ((x :: t ++ ["_"%char]) ++ y :: u)
    by (simpl; rewrite <- app_assoc; reflexivity).
  rewrite last_after by discriminate. assumption.
Qed.

Lemma space_no_digits (a : str) :
  forallb int_space a = true -> filter is_digit a = [].
Proof.
  induction a as [|x a IH]; [reflexivity|]. cbn [forallb filter]. intros H.
  apply andb_true_iff in H. destruct H as [Hx Ha].
  destruct (is_digit x) eqn:D; [|exact (IH Ha)].
  rewrite (digit_not_int_space _ D) in Hx. discriminate.
Qed.

(** The digits of a value are those of what is left when the white space
    around it is stripped. *)
Lemma stripped_digits (a core b : str) :
  forallb int_space a = true -> forallb int_space b = true ->
  filter is_digit (a ++ core ++ b) = filter is_digit core.
Proof.
  intros Ha Hb. rewrite !filter_app.
  rewrite (space_no_digits a Ha), (space_no_digits b Hb), app_nil_r.
  reflexivity.
Qed.

Lemma int_parses_literal (value : str) :
  int_parses value = true <->
  exists a core b,
    value = a ++ core ++ b /\ forallb int_space a = true /\
    forallb int_space b = true /\ int_literal core /\
    List.length (filter is_digit core) <= int_max_str_digits.
Proof.
  unfold int_parses, int_literal. split.
  - intros H.
    destruct (lstrip_split int_space value) as (a & Ea & Ha).
    destruct (rstrip_split int_space (lstrip int_space value)) as (b & Eb & Hb).
    destruct (rstrip int_space (lstrip int_space value)) as [|x s'] eqn:Core;
      [discriminate|].
    apply andb_true_iff in H. destruct H as [H Hcap]. apply Nat.leb_le in Hcap.
    exists a, (x :: s'), b. split; [rewrite <- Eb; exact Ea|].
    do 2 (split; [assumption|]). split; [|exact Hcap].
    destruct (int_sign x) eqn:Hx; [right | left; apply int_digits_groups, H].
    exists x, s'. repeat split; auto. apply int_digits_groups, H.
  - intros (a & core & b & -> & Ha & Hb & Lit & Hcap).
    assert (Ends : exists x t, core = x :: t /\ int_space x = false
              /\ int_space (last core " "%char) = false).
    { destruct Lit as [G | (sg & body & Hs & -> & G)];
        destruct (digit_groups_ends _ G) as (x & t & -> & Hx & Hl).
      - exists x, t. repeat split; auto using digit_not_int_space.
      - exists sg, (x :: t). repeat split; auto using sign_not_int_space.
        change (sg :: x :: t) with ([sg] ++ x :: t).
        rewrite last_after by discriminate. auto using digit_not_int_space. }
    destruct Ends as (x & t & -> & Hx & Hl).
    rewrite strip_core; auto.
    apply andb_true_iff. split; [|apply Nat.leb_le, Hcap].
    destruct Lit as [G | (sg & body & Hs & E & G)].
    + destruct (digit_groups_ends _ G) as (y & u & E & Hy & _).
      injection E as <- <-. rewrite (digit_not_sign _ Hy).
      apply int_digits_groups, G.
    + injection E as <- <-. rewrite Hs. apply int_digits_groups, G.
Qed.

(** C7, as the code has it.  [validate_int] accepts a value exactly when,
    between white space that [int] strips, it is an optional sign and runs
    of decimal digits with single underscores between them, with no more
    digits in all than the interpreter converts (4300); every value of the
    stated form (a sign and digits) with no more digits than that is among
    them, and no value with more digits is; and the message of a rejected
    value is the stated one. *)
Theorem validate_int_accepts_int_literals (v : str) :
  (is_valid (validate_int v) = true <->
   exists a core b,
     v = a ++ core ++ b /\ forallb int_space a = true /\
     forallb int_space b = true /\ int_literal core /\
     List.length (filter is_digit core) <= int_max_str_digits)
  /\ (stated_decimal_integer v = true ->
      List.length (filter is_digit v) <= int_max_str_digits ->
      is_valid (validate_int v) = true)
  /\ (int_max_str_digits < List.length (filter is_digit v) ->
      is_valid (validate_int v) = false)
  /\ (is_valid (validate_int v) = false ->
      error_message (validate_int v)
      = Some ("'" ++ v ++ "' is not a valid integer")).
Proof.
  assert (V : is_valid (validate_int v) = int_parses v)
    by (unfold validate_int; destruct (int_parses v); reflexivity).
  split; [rewrite V; apply int_parses_literal|]. split; [|split].
  - rewrite V. intros H Hcap. apply int_parses_literal.
    exists [], v, []. rewrite app_nil_r. repeat split; auto.
    unfold stated_decimal_integer in H. destruct v as [|x t]; [discriminate|].
    destruct (int_sign x) eqn:Hx.
    + right. apply andb_true_iff in H. destruct H as [Hn Ht].
      exists x, t. repeat split; auto. apply DG_last; [|assumption].
      destruct t; [discriminate | discriminate].
    + left. apply DG_last; [discriminate | assumption].
  - rewrite V. intros Hcap. destruct (int_parses v) eqn:P; [|reflexivity].
    apply int_parses_literal in P.
    destruct P as (a & core & b & -> & Ha & Hb & _ & Hle).
    rewrite (stripped_digits a core b Ha Hb) in Hcap. lia.
  - unfold validate_int. destruct (int_parses v); [discriminate | reflexivity].
Qed.

(** C7, as it is stated, fails: digits with an underscore between them,
    and digits between spaces, are accepted. *)
Lemma validate_int_accepts_more_than_stated :
  is_valid (validate_int "1_000") = true
  /\ stated_decimal_integer "1_000" = false
  /\ is_valid (validate_int " 42 ") = true
  /\ stated_decimal_integer " 42 " = false.
Proof. vm_compute. repeat split. Qed.

Example validate_int_examples :
  is_valid (validate_int "42") = true
  /\ is_valid (validate_int "-10") = true
  /\ validate_int "not_a_number"
     = invalid "'not_a_number' is not a valid integer".
Proof. vm_compute. repeat split. Qed.

(** The cap on the digits: 4300 ones are converted, 4301 are not, and the
    sign is not counted. *)
Example validate_int_digit_cap :
  is_valid (validate_int (repeat "1"%char 4300)) = true
  /\ is_valid (validate_int ("-"%char :: repeat "1"%char 4300)) = true
  /\ is_valid (validate_int (repeat "1"%char 4301)) = false
  /\ stated_decimal_integer (repeat "1"%char 4301) = true.
Proof. vm_compute. repeat split. Qed.

(** ** Placeholders *)

Lemma py_strip_empty (v : str) : py_strip v = [] <-> forallb is_space v = true.
Proof.
  unfold py_strip. split.
  - intros H. destruct (lstrip_split is_space v) as (a & E & Ha).
    destruct (rstrip_split is_space (lstrip is_space v)) as (b & Eb & Hb).
    rewrite H in Eb. simpl in Eb. rewrite E, Eb, forallb_app, Ha, Hb. reflexivity.
  - intros H. rewrite (lstrip_none_left _ _ H). reflexivity.
Qed.

Lemma at_end_iff (s : str) : at_end s = true <-> s = [] \/ s = [LF].
Proof.
  destruct s as [|x [|y s]]; simpl.
  - tauto.
  - rewrite is_char_eq. split; [intros ->; auto | intros [H|H]; congruence].
  - split; [discriminate | intros [H|H]; discriminate].
Qed.

Lemma dot_forall (s : str) : forallb dot s = true <-> ~ In LF s.
Proof.
  induction s as [|x s IH]; simpl; [tauto|].
  rewrite andb_true_iff, IH. unfold dot. rewrite negb_true_iff.
  destruct (is_char LF x) eqn:E.
  - apply is_char_eq in E. subst x. split; [intros [H _]; discriminate | tauto].
  - assert (x <> LF) by (intros ->; unfold is_char in E;
                         rewrite Ascii.eqb_refl in E; discriminate).
    intuition congruence.
Qed.

(** A pattern without anchors and groups is found exactly where a text it
    can take occurs. *)
Lemma search_occurs (r : regex) (P : str -> Prop) (v : str) :
  (forall pos w rest g g', matches r pos w rest g g' <-> P w /\ g' = g) ->
  found (re_search r v) = true <-> occurs P v.
Proof.
  intros Hr. unfold re_search, occurs. rewrite search_from_found. split.
  - intros (pre & w & rest & g' & E & M). apply Hr in M. destruct M. eauto.
  - intros (pre & w & rest & E & Pw). exists pre, w, rest, no_groups.
    split; [assumption | apply Hr; auto].
Qed.

Lemma matches_your_here pos w rest g g' :
  matches (lit_i "your" ;; Chr us_or_space ;; star dot ;; lit_i "here")
    pos w rest g g' <-> your_here w /\ g' = g.
Proof.
  unfold your_here, star. rewrite matches_Cat. split.
  - intros (wa & w1 & g1 & -> & Ma & M).
    apply matches_lit_i in Ma. destruct Ma as [Ha ->].
    apply matches_Cat in M. destruct M as (ws & w2 & g2 & -> & Ms & M).
    apply matches_Chr in Ms. destruct Ms as (sep & -> & Hs & ->).
    apply matches_Cat in M. destruct M as (mid & wb & g3 & -> & Mm & Mb).
    apply matches_Rep in Mm. destruct Mm as (Hm & _ & ->).
    apply matches_lit_i in Mb. destruct Mb as [Hb ->].
    split; [|reflexivity]. exists wa, sep, mid, wb.
    repeat split; auto. apply dot_forall, Hm.
  - intros [(wa & sep & mid & wb & -> & Ha & Hs & Hm & Hb) ->].
    exists wa, (sep :: mid ++ wb), g. split; [reflexivity|]. split.
    + apply matches_lit_i. auto.
    + apply matches_Cat. exists [sep], (mid ++ wb), g. split; [reflexivity|]. split.
      * apply matches_Chr. eauto.
      * apply matches_Cat. exists mid, wb, g. split; [reflexivity|]. split.
        -- apply matches_Rep. repeat split; [apply dot_forall, Hm | lia].
        -- apply matches_lit_i. auto.
Qed.

Lemma matches_two_words (a b : str) pos w rest g g' :
  matches (lit_i a ;; Opt (Chr us_or_space) ;; lit_i b) pos w rest g g'
  <-> two_words a b w /\ g' = g.
Proof.
  unfold two_words. rewrite matches_Cat. split.
  - intros (wa & w1 & g1 & -> & Ma & M).
    apply matches_lit_i in Ma. destruct Ma as [Ha ->].
    apply matches_Cat in M. destruct M as (sep & wb & g2 & -> & Ms & Mb).
    apply matches_lit_i in Mb. destruct Mb as [Hb ->].
    apply matches_Opt in Ms.
    split; [exists wa, sep, wb; repeat split; auto|].
    + destruct Ms as [Ms | [-> _]]; [|auto].
      apply matches_Chr in Ms. destruct Ms as (c & -> & Hc & _). eauto.
    + destruct Ms as [Ms | [_ ->]]; [|reflexivity].
      apply matches_Chr in Ms. destruct Ms as (c & _ & _ & ->). reflexivity.
  - intros [(wa & sep & wb & -> & Ha & Hb & Hs) ->].
    exists wa, (sep ++ wb), g. split; [reflexivity|]. split.
    + apply matches_lit_i. auto.
    + apply matches_Cat. exists sep, wb, g. split; [reflexivity|]. split.
      * apply matches_Opt. destruct Hs as [-> | (c & -> & Hc)]; [auto|].
        left. apply matches_Chr. eauto.
      * apply matches_lit_i. auto.
Qed.

Lemma search_xxx (v : str) :
  found (re_search (lit_i "xx" ;; plus (is_char_i "x")) v) = true
  <-> occurs (same_letters "xxx") v.
Proof.
  unfold re_search, occurs, plus. rewrite search_from_found. split.
  - intros (pre & w & rest & g' & E & M).
    apply matches_Cat in M. destruct M as (wa & wb & g1 & -> & Ma & Mb).
    apply matches_lit_i in Ma. destruct Ma as [Ha _].
    apply matches_Rep in Mb. destruct Mb as (Hb & Hn & _).
    destruct wb as [|y wb]; [simpl in Hn; lia|].
    simpl in Hb. apply andb_true_iff in Hb. destruct Hb as [Hy _].
    apply Ascii.eqb_eq in Hy.
    exists pre, (wa ++ [y]), (wb ++ rest). split.
    + rewrite E, <- !app_assoc. reflexivity.
    + unfold same_letters in *. rewrite map_app, Ha. simpl. rewrite Hy. reflexivity.
  - intros (pre & w & post & E & Hw). unfold same_letters in Hw.
    destruct w as [|c1 [|c2 [|c3 [|c4 w]]]]; try discriminate Hw.
    simpl in Hw. injection Hw as H1 H2 H3.
    exists pre, [c1; c2; c3], post, no_groups. split; [assumption|].
    apply matches_Cat. exists [c1; c2], [c3], no_groups.
    split; [reflexivity|]. split.
    + apply matches_lit_i. split; [|reflexivity]. unfold same_letters. simpl.
      rewrite H1, H2. reflexivity.
    + apply matches_Rep. repeat split; simpl; [|lia].
      unfold is_char_i. rewrite H3, Ascii.eqb_refl. reflexivity.
Qed.

Lemma search_whole (l v : str) :
  found (re_search (Bos ;; lit l ;; Eos) v) = true <-> v = l \/ v = l ++ [LF].
Proof.
  unfold re_search. rewrite search_from_found. split.
  - intros (pre & w & rest & g' & E & M).
    apply matches_Cat in M. destruct M as (w0 & w1 & g1 & -> & M0 & M).
    apply matches_Bos in M0. destruct M0 as (Hp & -> & ->).
    apply matches_Cat in M. destruct M as (w2 & w3 & g2 & -> & Ml & Me).
    apply matches_lit in Ml. destruct Ml as [-> ->].
    apply matches_Eos in Me. destruct Me as (He & -> & _).
    destruct pre; [|simpl in Hp; discriminate]. simpl in E. rewrite app_nil_r in E.
    apply at_end_iff in He. destruct He as [-> | ->]; [left | right]; auto.
    rewrite E. apply app_nil_r.
  - intros H. exists [], l.
    assert (exists rest, v = l ++ rest /\ at_end rest = true) as (rest & -> & He).
    { destruct H as [-> | ->]; [exists []; rewrite app_nil_r | exists [LF]]; auto. }
    exists rest, no_groups. split; [reflexivity|].
    apply matches_Cat. exists [], l, no_groups. split; [reflexivity|]. split.
    + apply matches_Bos. auto.
    + apply matches_Cat. exists l, [], no_groups.
      split; [symmetry; apply app_nil_r|]. split.
      * apply matches_lit. auto.
      * apply matches_Eos. auto.
Qed.

Lemma placeholder_patterns_found (v : str) :
  existsb (fun pattern => found (re_search pattern v)) PLACEHOLDER_PATTERNS = true
  <->
  occurs your_here v
  \/ occurs (same_letters "placeholder") v
  \/ occurs (two_words "change" "me") v
  \/ occurs (two_words "replace" "this") v
  \/ occurs (same_letters "todo") v
  \/ occurs (same_letters "xxx") v
  \/ exists l, In l PLACEHOLDER_LITERALS /\ (v = l \/ v = l ++ [LF]).
Proof.
  unfold PLACEHOLDER_PATTERNS. cbn [existsb].
  rewrite !orb_true_iff.
  rewrite (search_occurs _ your_here v) by apply matches_your_here.
  rewrite (search_occurs _ (same_letters "placeholder") v)
    by (intros; apply matches_lit_i).
  rewrite (search_occurs _ (two_words "change" "me") v)
    by (intros; apply matches_two_words).
  rewrite (search_occurs _ (two_words "replace" "this") v)
    by (intros; apply matches_two_words).
  rewrite (search_occurs _ (same_letters "todo") v)
    by (intros; apply matches_lit_i).
  rewrite search_xxx, !search_whole.
  unfold PLACEHOLDER_LITERALS.
  split.
  - intros [H|[H|[H|[H|[H|[H|H]]]]]]; auto 7.
    do 6 right.
    destruct H as [H|[H|[H|[H|[H|H]]]]]; [| | | | |discriminate];
      eexists; (split; [|exact H]); simpl; auto 6.
  - intros [H|[H|[H|[H|[H|[H|H]]]]]]; auto 7.
    do 6 right. destruct H as (l & Hin & H). simpl in Hin.
    destruct Hin as [<-|[<-|[<-|[<-|[<-|[]]]]]]; auto 6.
Qed.

(** C1, as the code has it.  A value is a placeholder exactly when it is
    empty or all white space, or holds "your", an underscore or a
    white-space character, any text of one line and "here", or holds
    "placeholder", "todo" or three x, or holds "change" and "me" (or
    "replace" and "this") with at most one underscore or white-space
    character between them, all without regard to case, or is one of the
    five literals, alone or followed by one line feed.  The stated
    examples come out as stated. *)
Theorem is_placeholder_exact (v : str) :
  (is_placeholder v = true <->
   forallb is_space v = true
   \/ occurs your_here v
   \/ occurs (same_letters "placeholder") v
   \/ occurs (two_words "change" "me") v
   \/ occurs (two_words "replace" "this") v
   \/ occurs (same_letters "todo") v
   \/ occurs (same_letters "xxx") v
   \/ exists l, In l PLACEHOLDER_LITERALS /\ (v = l \/ v = l ++ [LF]))
  /\ map is_placeholder
       [ "" : str; "   " : str; "YOUR_API_KEY_HERE" : str; "placeholder" : str;
         "change_me" : str; "admin123" : str; "password123" : str ]
     = [true; true; true; true; true; true; true]
  /\ map is_placeholder
       [ "sk-1234567890abcdef" : str; "postgresql://localhost/db" : str ]
     = [false; false].
Proof.
  split; [|split; vm_compute; reflexivity].
  rewrite <- py_strip_empty, <- placeholder_patterns_found.
  unfold is_placeholder. destruct (py_strip v) as [|x t].
  - split; auto.
  - split; [auto | intros [H|H]; [discriminate | assumption]].
Qed.

(** C1, as it is stated, fails: a tab between "change" and "me" is
    neither an underscore nor a space, and "secret" followed by a line feed
    is not the literal, yet both values are placeholders. *)
Lemma is_placeholder_beyond_stated_rule :
  is_placeholder ("change" ++ TAB :: "me") = true
  /\ stated_placeholder_rule ("change" ++ TAB :: "me") = false
  /\ is_placeholder ("secret" ++ [LF]) = true
  /\ stated_placeholder_rule ("secret" ++ [LF]) = false.
Proof. vm_compute. repeat split. Qed.

(** ** Writing an entry and reading it back *)

Lemma ident_start_char c : ident_start c = true -> ident_char c = true.
Proof. by_char c. Qed.

Lemma ident_char_plain c :
  ident_char c = true ->
  is_space c = false /\ is_char "=" c = false /\ is_char "#" c = false
  /\ is_char LF c = false /\ is_char CR c = false.
Proof. by_char c. Qed.

Lemma equals_plain :
  is_space "=" = false /\ ident_char "=" = false /\ is_char "#" "=" = false
  /\ is_char LF "=" = false /\ is_char CR "=" = false.
Proof. vm_compute. repeat split. Qed.

Lemma space_not_ident c : is_space c = true -> ident_char c = false.
Proof. by_char c. Qed.

Lemma is_identifier_chars (k : str) :
  is_identifier k = true ->
  exists x t, k = x :: t /\ ident_start x = true /\ forallb ident_char k = true.
Proof.
  destruct k as [|x t]; simpl; [discriminate|]. intros H.
  apply andb_true_iff in H. destruct H as [Hx Ht].
  exists x, t. rewrite (ident_start_char _ Hx), Ht. auto.
Qed.

(** Two runs of a class that stop at a character outside it are the same
    run. *)
Lemma run_unique (p : ascii -> bool) : forall (a b r r' : str) x y,
  forallb p a = true -> forallb p b = true -> p x = false -> p y = false ->
  a ++ x :: r = b ++ y :: r' -> a = b /\ x = y /\ r = r'.
Proof.
  induction a as [|c a IH]; intros [|d b] r r' x y Ha Hb Hx Hy E; simpl in *.
  - injection E as -> ->. auto.
  - injection E as -> _. apply andb_true_iff in Hb. destruct Hb. congruence.
  - injection E as -> _. apply andb_true_iff in Ha. destruct Ha. congruence.
  - injection E as -> E. apply andb_true_iff in Ha, Hb.
    destruct (IH b r r' x y) as (-> & -> & ->); tauto.
Qed.

Lemma lstrip_app p (a s : str) :
  forallb p a = true -> lstrip p (a ++ s) = lstrip p s.
Proof.
  induction a as [|x a IH]; simpl; [reflexivity|].
  intros H. apply andb_true_iff in H. destruct H as [-> H]. auto.
Qed.

Lemma rstrip_app p (b : str) : forall c : str,
  forallb p b = true -> rstrip p (c ++ b) = rstrip p c.
Proof.
  intros c Hb. induction c as [|x c IH]; simpl.
  - induction b as [|y b IHb]; simpl; [reflexivity|].
    simpl in Hb. apply andb_true_iff in Hb. destruct Hb as [Hy Hb].
    rewrite (IHb Hb), Hy. reflexivity.
  - rewrite IH. reflexivity.
Qed.

Lemma rstrip_keeps_head p x (s : str) :
  p x = false -> exists t, rstrip p (x :: s) = x :: t.
Proof.
  intros Hx. simpl. destruct (rstrip p s); rewrite ?Hx; eauto.
Qed.

Lemma no_char_forall a (s : str) :
  ~ In a s <-> forallb (fun c => negb (is_char a c)) s = true.
Proof.
  induction s as [|x s IH]; simpl; [tauto|].
  rewrite andb_true_iff, <- IH, negb_true_iff.
  destruct (is_char a x) eqn:E.
  - apply is_char_eq in E. subst. intuition discriminate.
  - assert (x <> a) by (intros ->; unfold is_char in E;
                        rewrite Ascii.eqb_refl in E; discriminate).
    intuition congruence.
Qed.

Lemma universal_newlines_none (s : str) :
  ~ In CR s -> universal_newlines s = s.
Proof.
  induction s as [|x s IH]; simpl; [reflexivity|]. intros H.
  destruct (is_char CR x) eqn:E.
  - apply is_char_eq in E. subst. tauto.
  - rewrite IH by tauto. reflexivity.
Qed.

Lemma file_lines_one (s : str) :
  s <> [] -> ~ In LF s -> file_lines s = [s] /\ file_lines (s ++ [LF]) = [s ++ [LF]].
Proof.
  induction s as [|x s IH]; [congruence|]. intros _ H. simpl in *.
  assert (E : is_char LF x = false).
  { destruct (is_char LF x) eqn:E; [|reflexivity].
    apply is_char_eq in E. subst. tauto. }
  rewrite E. destruct s as [|y s].
  - split; reflexivity.
  - destruct IH as [-> ->]; [discriminate | tauto |]. auto.
Qed.

Lemma needs_quoting_false (v : str) :
  needs_quoting v = false -> ~ In "#"%char v.
Proof.
  unfold needs_quoting. simpl. intros H.
  apply orb_false_elim in H. destruct H as [_ H].
  apply orb_false_elim in H. destruct H as [H _].
  apply contains_false, H.
Qed.

(** The only way the line pattern takes the line "key=value". *)
Lemma env_line_of_entry (k v : str) m :
  is_identifier k = true -> ~ In "#"%char v -> ~ In LF v ->
  re_match ENV_LINE_PATTERN (k ++ "=" ++ v) = Some m ->
  m 1 = Some k /\ m 3 = None /\
  exists ws3 v', m 2 = Some v' /\ v = ws3 ++ v' /\ forallb is_space ws3 = true.
Proof.
  intros Hk Hhash Hlf Hm.
  destruct (is_identifier_chars _ Hk) as (k0 & kt & Ek & Hk0 & Hkc).
  apply re_match_sound in Hm. destruct Hm as (w & rest & E & M).
  apply env_line_inv in M.
  destruct M as (ws1 & k' & ws2 & ws3 & v' & tail & _ & -> & Hws1 & Hk' & Hws2
                 & Hws3 & Hv' & Hend & G1 & G2 & G3).
  destruct (is_identifier_chars _ Hk') as (k0' & kt' & Ek' & _ & Hkc').
  (* no white space before the key *)
  destruct ws1 as [|s ws1].
  2:{ exfalso. rewrite Ek in E. simpl in E. injection E as <- _.
      simpl in Hws1. apply andb_true_iff in Hws1. destruct Hws1 as [Hs _].
      apply ident_start_char, ident_char_plain in Hk0. destruct Hk0. congruence. }
  simpl in E. repeat (rewrite <- app_assoc in E; simpl in E).
  (* the key is the whole run of identifier characters *)
  assert (Key : k' = k /\ ws2 = [] /\ v = ws3 ++ v' ++ tail ++ rest).
  { destruct ws2 as [|s ws2]; simpl in E.
    - destruct (run_unique ident_char k k' _ _ _ _ Hkc Hkc'
                  (proj1 (proj2 equals_plain)) (proj1 (proj2 equals_plain)) E)
        as (-> & _ & ->). auto.
    - exfalso. simpl in Hws2. apply andb_true_iff in Hws2. destruct Hws2 as [Hs _].
      destruct (run_unique ident_char k k' _ _ _ _ Hkc Hkc'
                  (proj1 (proj2 equals_plain)) (space_not_ident _ Hs) E)
        as (_ & <- & _).
      destruct equals_plain. congruence. }
  destruct Key as (-> & -> & Ev).
  (* no comment, and the line ends where the value ends *)
  assert (tail = [] /\ m 3 = None) as [-> G3'].
  { destruct G3 as [[-> H]|(ws4 & ws5 & c & -> & _)]; [auto|].
    exfalso. apply Hhash. rewrite Ev.
    apply in_or_app; right. apply in_or_app; right. apply in_or_app; left.
    apply in_or_app; right. left. reflexivity. }
  assert (rest = []) as ->.
  { apply at_end_iff in Hend. destruct Hend as [-> | ->]; [reflexivity|].
    exfalso. apply Hlf. rewrite Ev.
    apply in_or_app; right. apply in_or_app; right. left. reflexivity. }
  simpl in Ev. rewrite app_nil_r in Ev.
  split; [assumption|]. split; [assumption|]. eauto.
Qed.

Lemma env_line_of_entry_matches (k v : str) :
  is_identifier k = true -> ~ In "#"%char v ->
  found (re_match ENV_LINE_PATTERN (k ++ "=" ++ v)) = true.
Proof.
  intros Hk Hhash.
  destruct (is_identifier_chars _ Hk) as (k0 & kt & -> & Hk0 & Hkc).
  simpl in Hkc. apply andb_true_iff in Hkc. destruct Hkc as [_ Hkt].
  assert (Hv : forallb not_hash v = true) by (apply no_char_forall, Hhash).
  replace ((k0 :: kt) ++ "=" ++ v)
    with (([] ++ [] ++ ([k0] ++ kt) ++ [] ++ ["="%char] ++ [] ++ v ++ [] ++ []) ++ [])
    by (simpl; rewrite !app_nil_r; reflexivity).
  eapply re_match_complete.
  unfold ENV_LINE_PATTERN, star, star_lazy.
  repeat (eapply M_Cat || eapply M_Grp || eapply M_Bos || eapply M_Opt_skipped
          || (eapply M_Chr; solve [assumption | reflexivity])
          || (eapply M_Rep; [solve [assumption | reflexivity] | simpl; lia])
          || (eapply M_Eos; reflexivity)).
Qed.

Lemma parse_line_of_entry (k v line : str) :
  is_identifier k = true -> needs_quoting v = false -> ~ In LF v ->
  py_strip v = v -> unquote_value v = v ->
  line = k ++ "=" ++ v \/ line = (k ++ "=" ++ v) ++ [LF] ->
  parse_line [] line = [(k, mkEnvEntry k v None)].
Proof.
  intros Hk Hq Hlf Hstrip Hunq Hline.
  pose proof (needs_quoting_false _ Hq) as Hhash.
  destruct (is_identifier_chars _ Hk) as (k0 & kt & Ek & Hk0 & Hkc).
  assert (NoLF : forallb (fun c => negb (is_char LF c)) (k ++ "=" ++ v) = true).
  { rewrite !forallb_app. apply andb_true_iff. split; [|apply andb_true_iff; split].
    - rewrite forallb_forall in *. intros c Hc. apply Hkc, ident_char_plain in Hc.
      destruct Hc as (_ & _ & _ & -> & _). reflexivity.
    - reflexivity.
    - apply no_char_forall, Hlf. }
  assert (Line : rstrip (is_char LF) line = k ++ "=" ++ v).
  { destruct Hline as [-> | ->].
    - apply rstrip_none, NoLF.
    - rewrite rstrip_app by reflexivity. apply rstrip_none, NoLF. }
  unfold parse_line. rewrite Line.
  assert (Hs0 : is_space k0 = false /\ is_char "#" k0 = false).
  { apply ident_start_char, ident_char_plain in Hk0. tauto. }
  destruct Hs0 as [Hsp Hh].
  assert (Strip : exists t, py_strip (k ++ "=" ++ v) = k0 :: t).
  { unfold py_strip. rewrite Ek. simpl. rewrite Hsp.
    apply rstrip_keeps_head, Hsp. }
  destruct Strip as [t ->]. cbv beta iota zeta. unfold startswith. rewrite Hh.
  pose proof (env_line_of_entry_matches k v Hk Hhash) as F.
  destruct (re_match ENV_LINE_PATTERN (k ++ "=" ++ v)) as [m|] eqn:Hm;
    [|discriminate].
  destruct (env_line_of_entry k v m Hk Hhash Hlf Hm)
    as (G1 & G3 & ws3 & v' & G2 & Ev & Hws3).
  unfold group. rewrite G1, G2, G3.
  assert (py_strip v' = v) as ->.
  { rewrite <- Hstrip. rewrite Ev at 1. unfold py_strip.
    rewrite lstrip_app by assumption. reflexivity. }
  rewrite Hunq. reflexivity.
Qed.

(** C2, as the code has it.  For a key that is an identifier and a value
    that needs no quoting, holds no line break, has no white space at
    either end and is not itself wrapped in a pair of quotes, parsing the
    line [format_entry] writes (with or without its line feed) gives one
    entry, with that key, that value and no comment. *)
Theorem format_entry_then_parse (k v : str) :
  is_identifier k = true -> needs_quoting v = false ->
  ~ In LF v -> ~ In CR v ->
  py_strip v = v -> unquote_value v = v ->
  parse_text (format_entry k v) = [(k, mkEnvEntry k v None)]
  /\ parse_text (format_entry k v ++ [LF]) = [(k, mkEnvEntry k v None)].
Proof.
  intros Hk Hq Hlf Hcr Hstrip Hunq.
  unfold format_entry. rewrite Hq.
  destruct (is_identifier_chars _ Hk) as (k0 & kt & Ek & Hk0 & Hkc).
  assert (Plain : forall a, a = LF \/ a = CR -> ~ In a (k ++ "=" ++ v)).
  { intros a Ha Hin. apply in_app_or in Hin. destruct Hin as [Hin|[<-|Hin]].
    - rewrite forallb_forall in Hkc. apply Hkc, ident_char_plain in Hin.
      destruct Hin as (_ & _ & _ & H1 & H2).
      destruct Ha as [-> | ->]; unfold is_char in *;
        rewrite Ascii.eqb_refl in *; discriminate.
    - destruct Ha as [Ha|Ha]; vm_compute in Ha; discriminate.
    - destruct Ha as [-> | ->]; tauto. }
  assert (Hne : k ++ "=" ++ v <> []) by (rewrite Ek; discriminate).
  destruct (file_lines_one _ Hne (Plain LF (or_introl eq_refl))) as [L1 L2].
  unfold parse_text. split.
  - rewrite universal_newlines_none by (apply Plain; auto).
    rewrite L1. simpl. apply parse_line_of_entry; auto.
  - rewrite universal_newlines_none.
    + rewrite L2. simpl. apply parse_line_of_entry; auto.
    + intros Hin. apply in_app_or in Hin. destruct Hin as [Hin|[Hin|[]]].
      * revert Hin. apply Plain; auto.
      * vm_compute in Hin. discriminate.
Qed.

Lemma format_entry_then_parse_witness :
  parse_text (format_entry "PORT" "8080")
    = [("PORT" : str, mkEnvEntry "PORT" "8080" None)]
  /\ parse_text (format_entry "PORT" "8080" ++ [LF])
    = [("PORT" : str, mkEnvEntry "PORT" "8080" None)].
Proof.
  apply (format_entry_then_parse "PORT" "8080");
    solve [reflexivity | vm_compute; intuition discriminate].
Defined.

(** C2, as it is stated, fails: a value in quotes needs no quoting, is
    written as it is and is read back without its quotes; a value that
    starts with a tab is read back without the tab. *)
Lemma format_entry_then_parse_loses_quotes :
  is_identifier "K" = true
  /\ needs_quoting "'a'" = false
  /\ parse_text (format_entry "K" "'a'") = [("K" : str, mkEnvEntry "K" "a" None)]
  /\ parse_text (format_entry "K" "'a'") <> [("K" : str, mkEnvEntry "K" "'a'" None)]
  /\ needs_quoting (TAB :: "a") = false
  /\ parse_text (format_entry "K" (TAB :: "a"))
     = [("K" : str, mkEnvEntry "K" "a" None)].
Proof. vm_compute. repeat split. discriminate. Qed.

(** ** The cases of the test suite, run on the model *)

Example test_parse_simple_file :
  parse_text "
DATABASE_URL=postgresql://localhost/db
API_KEY=secret123
PORT=3000
"
  = [ ("DATABASE_URL" : str,
       mkEnvEntry "DATABASE_URL" "postgresql://localhost/db" None);
      ("API_KEY" : str, mkEnvEntry "API_KEY" "secret123" None);
      ("PORT" : str, mkEnvEntry "PORT" "3000" None) ].
Proof. vm_compute. reflexivity. Qed.

Example test_parse_with_comments :
  map (fun kv => comment (snd kv))
    (parse_text "
# This is a comment
DATABASE_URL=postgresql://localhost/db
API_KEY=secret123  # (url)
PORT=3000  # (int)
")
  = [None; Some ("(url)" : str); Some ("(int)" : str)].
Proof. vm_compute. reflexivity. Qed.

Example test_parse_quoted_values :
  map (fun kv => value (snd kv))
    (parse_text (LF :: "SINGLE_QUOTED='value with spaces'" ++ LF
                 :: "DOUBLE_QUOTED=" ++ DQUOTE :: "another value" ++ DQUOTE
                 :: LF :: "NO_QUOTES=simple" ++ [LF]))
  = ["value with spaces" : str; "another value" : str; "simple" : str].
Proof. vm_compute. reflexivity. Qed.

Example test_parse_nonexistent_file : parse_file None = [].
Proof. reflexivity. Qed.

Example test_parse_last_write_wins :
  parse_text "A=1
B=2
A=3"
  = [ ("A" : str, mkEnvEntry "A" "3" None);
      ("B" : str, mkEnvEntry "B" "2" None) ].
Proof. vm_compute. reflexivity. Qed.

Example test_format_entry :
  format_entry "KEY" "value" = "KEY=value"
  /\ format_entry "KEY" "value with spaces"
     = "KEY=" ++ DQUOTE :: "value with spaces" ++ [DQUOTE]
  /\ format_entry "KEY" "value#with#hash"
     = "KEY=" ++ DQUOTE :: "value#with#hash" ++ [DQUOTE].
Proof. vm_compute. repeat split. Qed.

Example test_is_placeholder :
  map is_placeholder
    [ "your_key_here" : str; "PLACEHOLDER" : str; "production_key_abc123" : str ]
  = [true; true; false].
Proof. vm_compute. reflexivity. Qed.

Example test_extract_validation_type :
  map extract_validation_type
    [ Some ("(int)" : str); Some ("some text (url) more text" : str);
      Some ("no validation" : str); Some ([] : str); None ]
  = [Some ("int" : str); Some ("url" : str); None; None; None].
Proof. vm_compute. reflexivity. Qed.

(** The hint decides the validator, whatever its case and the white space
    around it; an unknown hint accepts everything. *)
Example test_validate_value :
  is_valid (validate_value demo_urlparse "abc" (Some (" Int " : str))) = false
  /\ is_valid (validate_value demo_urlparse "abc" (Some ("float" : str))) = true
  /\ is_valid (validate_value demo_urlparse "abc" None) = true
  /\ validate_value demo_urlparse "x" (Some ("url" : str))
     = invalid "'x' is not a valid URL: rejected".
Proof. vm_compute. repeat split. Qed.

(** The audit of the spec's example: issues found, nothing written. *)
Example test_audit :
  let w := mkWorld (fun path => if str_eqb path ".env"
                                then Some ("API_KEY=YOUR_API_KEY_HERE
PORT=3000
NAME=" : str)
                                else None) [] [] in
  fst (audit demo_renders ".env" w) = Returned true
  /\ find_placeholder_values (parse_file (files w ".env"))
     = [ ("API_KEY" : str, "YOUR_API_KEY_HERE" : str,
          "Contains placeholder text" : str);
         ("NAME" : str, [] : str, "Empty value" : str) ].
Proof. vm_compute. split; reflexivity. Qed.

(** A placeholder that rich cannot read as markup: the audit stops at the
    table of the issues. *)
Example audit_stops_on_unreadable_value :
  let w := mkWorld (fun path => if str_eqb path ".env"
                                then Some ("K=[/todo]" : str)
                                else None) [] [] in
  fst (audit demo_renders ".env" w) = Raised "MarkupError"
  /\ files (snd (audit demo_renders ".env" w)) = files w.
Proof. vm_compute. split; reflexivity. Qed.

(** * Further properties of the parser *)

(** ** The parsed map *)

Lemma dict_set_forall {V : Type} (P : str -> V -> Prop) (k : str) (v : V) :
  forall d : dict V,
    P k v -> Forall (fun kv => P (fst kv) (snd kv)) d ->
    Forall (fun kv => P (fst kv) (snd kv)) (dict_set k v d).
Proof.
  intros d Hkv. induction d as [|[k' v'] d IH]; intros H; simpl.
  - repeat constructor. assumption.
  - inversion H as [|? ? Hhead Htail]; subst.
    destruct (str_eqb k' k) eqn:E; constructor; auto.
    apply str_eqb_eq in E. subst k'. assumption.
Qed.

Lemma fold_parse_line_invariant (P : dict EnvEntry -> Prop) :
  (forall d line, P d -> P (parse_line d line)) ->
  forall ls d, P d -> P (fold_left parse_line ls d).
Proof.
  intros Step. induction ls as [|l ls IH]; intros d Hd; simpl; auto.
Qed.

Lemma parse_file_keyed (file : option str) :
  Forall (fun kv => key (snd kv) = fst kv /\ is_identifier (fst kv) = true)
    (parse_file file).
Proof.
  destruct file as [text|]; [|constructor]. unfold parse_file, parse_text.
  apply (fold_parse_line_invariant
           (Forall (fun kv => key (snd kv) = fst kv
                              /\ is_identifier (fst kv) = true)));
    [|constructor].
  intros d line Hd. unfold parse_line.
  destruct (py_strip (rstrip (is_char LF) line)); [assumption|].
  destruct (startswith _ _); [assumption|].
  destruct (re_match _ _) as [m|] eqn:Hm; [|assumption].
  destruct (env_line_groups _ _ Hm) as (k & v & G1 & G2 & Hk & _).
  unfold group. rewrite G1, G2.
  apply (dict_set_forall
           (fun k e => key e = k /\ is_identifier k = true)); auto.
Qed.

(** X1. In every parsed map each key is there once, is an identifier, and is
    the key its entry carries. *)
Theorem parsed_map_is_keyed (file : option str) :
  NoDup (dict_keys (parse_file file))
  /\ Forall (fun kv => key (snd kv) = fst kv /\ is_identifier (fst kv) = true)
       (parse_file file).
Proof. split; [apply parse_file_wf | apply parse_file_keyed]. Qed.

(** ** Quotes *)

Lemma removelast_snoc {A : Type} (l : list A) (x : A) : removelast (l ++ [x]) = l.
Proof. rewrite removelast_app by discriminate. simpl. apply app_nil_r. Qed.

Lemma quote_chars :
  is_char DQUOTE DQUOTE = true /\ is_char SQUOTE SQUOTE = true
  /\ is_space DQUOTE = false /\ is_space SQUOTE = false.
Proof. vm_compute. auto. Qed.

(** X2. [_unquote_value] takes off one pair of equal quotes, the outer one,
    and leaves every other value as it is. *)
Theorem unquote_value_exact (v : str) :
  (exists q inner,
     (q = DQUOTE \/ q = SQUOTE) /\ v = q :: inner ++ [q]
     /\ unquote_value v = inner)
  \/ (unquote_value v = v
      /\ ~ exists q inner, (q = DQUOTE \/ q = SQUOTE) /\ v = q :: inner ++ [q]).
Proof.
  unfold unquote_value.
  destruct v as [|x t]; [right; split; [reflexivity|]; intros (q & i & _ & E); discriminate|].
  destruct (exists_last (l := x :: t)) as (u & z & E); [discriminate|].
  destruct u as [|y u]; simpl in E.
  - injection E as -> ->. right. split; [reflexivity|].
    intros (q & i & _ & E). injection E as _ E. destruct i; discriminate.
  - injection E as <- ->.
    assert (L : last (x :: u ++ [z]) " "%char = z)
      by (change (x :: u ++ [z]) with ((x :: u) ++ [z]); apply last_last).
    assert (Len : (2 <=? List.length (x :: u ++ [z])) = true)
      by (simpl; rewrite length_app; simpl; destruct (List.length u); reflexivity).
    rewrite Len, L. simpl hd. simpl tl. rewrite removelast_snoc.
    destruct (is_char DQUOTE x && is_char DQUOTE z
              || is_char SQUOTE x && is_char SQUOTE z) eqn:Q.
    + left. apply orb_true_iff in Q.
      destruct Q as [Q|Q]; apply andb_true_iff in Q; destruct Q as [Qx Qz];
        apply is_char_eq in Qx, Qz; subst; eauto 6.
    + right. split; [reflexivity|].
      intros (q & i & Hq & Ev). injection Ev as -> Ev.
      apply app_inj_tail in Ev. destruct Ev as [_ ->].
      destruct quote_chars as (D & S & _).
      destruct Hq as [-> | ->]; rewrite ?D, ?S in Q; simpl in Q;
        rewrite ?orb_true_r in Q; discriminate.
Qed.

(** ** A line that assigns a key *)

Lemma no_lf_line (k t : str) :
  is_identifier k = true -> ~ In LF t ->
  forallb (fun c => negb (is_char LF c)) (k ++ "=" ++ t) = true.
Proof.
  intros Hk Hlf. destruct (is_identifier_chars _ Hk) as (k0 & kt & _ & _ & Hkc).
  rewrite !forallb_app. apply andb_true_iff. split; [|apply andb_true_iff; split].
  - rewrite forallb_forall in *. intros c Hc. apply Hkc, ident_char_plain in Hc.
    destruct Hc as (_ & _ & _ & -> & _). reflexivity.
  - reflexivity.
  - apply no_char_forall, Hlf.
Qed.

Lemma chomp_assignment (k t line : str) :
  is_identifier k = true -> ~ In LF t ->
  line = k ++ "=" ++ t \/ line = (k ++ "=" ++ t) ++ [LF] ->
  rstrip (is_char LF) line = k ++ "=" ++ t.
Proof.
  intros Hk Hlf [-> | ->].
  - apply rstrip_none, no_lf_line; assumption.
  - rewrite rstrip_app by reflexivity. apply rstrip_none, no_lf_line; assumption.
Qed.

Lemma assignment_not_skipped (k t : str) :
  is_identifier k = true ->
  exists x s, py_strip (k ++ "=" ++ t) = x :: s /\ startswith "#" (x :: s) = false.
Proof.
  intros Hk. destruct (is_identifier_chars _ Hk) as (k0 & kt & -> & Hk0 & _).
  apply ident_start_char, ident_char_plain in Hk0.
  destruct Hk0 as (Hsp & _ & Hh & _).
  change ((k0 :: kt) ++ "=" ++ t) with (k0 :: (kt ++ "=" ++ t)).
  unfold py_strip. cbn [lstrip]. rewrite Hsp.
  destruct (rstrip_keeps_head is_space k0 (kt ++ "=" ++ t) Hsp) as [s E].
  rewrite E. exists k0, s. unfold startswith. auto.
Qed.

(** A line "key=text", where the text holds no [#], sets the key to the
    text, stripped and unquoted, with no comment. *)
Lemma parse_line_assignment (d : dict EnvEntry) (k t line : str) :
  is_identifier k = true -> ~ In "#"%char t -> ~ In LF t ->
  line = k ++ "=" ++ t \/ line = (k ++ "=" ++ t) ++ [LF] ->
  parse_line d line
  = dict_set k (mkEnvEntry k (unquote_value (py_strip t)) None) d.
Proof.
  intros Hk Hhash Hlf Hline. unfold parse_line.
  rewrite (chomp_assignment k t line Hk Hlf Hline).
  destruct (assignment_not_skipped k t Hk) as (x & s & -> & ->).
  pose proof (env_line_of_entry_matches k t Hk Hhash) as F.
  destruct (re_match ENV_LINE_PATTERN (k ++ "=" ++ t)) as [m|] eqn:Hm;
    [|discriminate].
  destruct (env_line_of_entry k t m Hk Hhash Hlf Hm)
    as (G1 & G3 & ws3 & v' & G2 & Ev & Hws3).
  unfold group. rewrite G1, G2, G3.
  assert (py_strip v' = py_strip t) as ->.
  { rewrite Ev. unfold py_strip. rewrite lstrip_app by assumption. reflexivity. }
  reflexivity.
Qed.

Lemma text_of_one_line (s : str) :
  s <> [] -> ~ In LF s -> ~ In CR s ->
  file_lines (universal_newlines s) = [s]
  /\ file_lines (universal_newlines (s ++ [LF])) = [s ++ [LF]].
Proof.
  intros Hne Hlf Hcr. rewrite !universal_newlines_none.
  - apply file_lines_one; assumption.
  - intros Hin. apply in_app_or in Hin. destruct Hin as [Hin|[Hin|[]]];
      [tauto | vm_compute in Hin; discriminate].
  - assumption.
Qed.

(** X3. A value that needs quoting is read back as it was written, provided it
    holds no [#] and no line break: the quotes that [format_entry] adds are
    the pair that parsing takes off, whatever is between them. *)
Theorem format_entry_quoted_then_parse (k v : str) :
  is_identifier k = true -> needs_quoting v = true ->
  ~ In "#"%char v -> ~ In LF v -> ~ In CR v ->
  parse_text (format_entry k v) = [(k, mkEnvEntry k v None)]
  /\ parse_text (format_entry k v ++ [LF]) = [(k, mkEnvEntry k v None)].
Proof.
  intros Hk Hq Hhash Hlf Hcr. unfold format_entry. rewrite Hq.
  set (t := DQUOTE :: v ++ [DQUOTE]).
  assert (Plain : forall a, a = "#"%char \/ a = LF \/ a = CR -> ~ In a t).
  { intros a Ha Hin. unfold t in Hin. destruct Hin as [<-|Hin].
    - destruct Ha as [Ha|[Ha|Ha]]; vm_compute in Ha; discriminate.
    - apply in_app_or in Hin. destruct Hin as [Hin|[<-|[]]].
      + destruct Ha as [->|[->| ->]]; tauto.
      + destruct Ha as [Ha|[Ha|Ha]]; vm_compute in Ha; discriminate. }
  assert (Value : unquote_value (py_strip t) = v).
  { destruct quote_chars as (D & _ & Dsp & _).
    assert (py_strip t = t) as ->.
    { assert (L : is_space (last t " "%char) = false \/ t = []).
      { left. unfold t.
        change (DQUOTE :: v ++ [DQUOTE]) with ((DQUOTE :: v) ++ [DQUOTE]).
        rewrite last_last. assumption. }
      pose proof (strip_core is_space [] t [] eq_refl eq_refl Dsp L) as S.
      rewrite app_nil_l, app_nil_r in S. exact S. }
    unfold unquote_value, t.
    assert (Len : (2 <=? List.length (DQUOTE :: v ++ [DQUOTE])) = true)
      by (simpl; rewrite length_app; simpl; destruct (List.length v); reflexivity).
    rewrite Len. simpl hd.
    change (DQUOTE :: v ++ [DQUOTE]) with ((DQUOTE :: v) ++ [DQUOTE]) at 1.
    rewrite last_last, D. simpl. apply removelast_snoc. }
  destruct (is_identifier_chars _ Hk) as (k0 & kt & Ek & _ & Hkc).
  assert (Line : forall a, a = LF \/ a = CR -> ~ In a (k ++ "=" ++ t)).
  { intros a Ha Hin. apply in_app_or in Hin. destruct Hin as [Hin|[<-|Hin]].
    - rewrite forallb_forall in Hkc. apply Hkc, ident_char_plain in Hin.
      destruct Hin as (_ & _ & _ & H1 & H2).
      destruct Ha as [-> | ->]; unfold is_char in *;
        rewrite Ascii.eqb_refl in *; discriminate.
    - destruct Ha as [Ha|Ha]; vm_compute in Ha; discriminate.
    - revert Hin. apply Plain. tauto. }
  destruct (text_of_one_line (k ++ "=" ++ t)) as [L1 L2];
    [rewrite Ek; discriminate | apply Line; auto | apply Line; auto |].
  unfold parse_text. rewrite L1, L2. simpl.
  rewrite !(parse_line_assignment [] k t) by (auto; apply Plain; auto).
  rewrite Value. auto.
Qed.

Lemma format_entry_quoted_then_parse_witness :
  parse_text (format_entry "KEY" "value with spaces")
  = [("KEY" : str, mkEnvEntry "KEY" "value with spaces" None)]
  /\ parse_text (format_entry "KEY" "value with spaces" ++ [LF])
  = [("KEY" : str, mkEnvEntry "KEY" "value with spaces" None)].
Proof.
  apply (format_entry_quoted_then_parse "KEY" "value with spaces");
    solve [reflexivity | vm_compute; intuition discriminate].
Defined.

(** ** Text after text *)

Lemma not_lf x : is_char LF x = false -> x <> LF.
Proof.
  intros E ->. unfold is_char in E. rewrite Ascii.eqb_refl in E. discriminate.
Qed.

Lemma universal_newlines_cons (x : ascii) (s : str) :
  universal_newlines (x :: s)
  = if is_char CR x then
      match s with
      | y :: _ => if is_char LF y then universal_newlines s
                  else LF :: universal_newlines s
      | [] => [LF]
      end
    else x :: universal_newlines s.
Proof. reflexivity. Qed.

Lemma universal_newlines_app_lf : forall (a more : str),
  universal_newlines (a ++ LF :: more)
  = universal_newlines (a ++ [LF]) ++ universal_newlines more.
Proof.
  induction a as [|x a IH]; intros more; [reflexivity|].
  rewrite <- !app_comm_cons, !universal_newlines_cons.
  destruct (is_char CR x).
  - destruct a as [|y a].
    + exact (IH more).
    + rewrite <- !app_comm_cons. destruct (is_char LF y).
      * exact (IH more).
      * cbn [app]. f_equal. exact (IH more).
  - rewrite IH. reflexivity.
Qed.

(** A text followed by a line feed reads as the text followed by a line
    feed, or as the text alone when it ends with a carriage return. *)
Lemma universal_newlines_snoc_lf : forall a : str,
  universal_newlines (a ++ [LF]) = universal_newlines a ++ [LF]
  \/ (universal_newlines (a ++ [LF]) = universal_newlines a
      /\ exists u, universal_newlines a = u ++ [LF]).
Proof.
  induction a as [|x a IH]; [left; reflexivity|].
  rewrite <- app_comm_cons, !universal_newlines_cons.
  destruct (is_char CR x).
  - destruct a as [|y a].
    + right. split; [reflexivity | exists []; reflexivity].
    + rewrite <- app_comm_cons. destruct (is_char LF y).
      * exact IH.
      * destruct IH as [E | (E & u & Eu)].
        -- left. cbn [app]. f_equal. exact E.
        -- right. split; [f_equal; exact E|].
           exists (LF :: u). cbn [app]. f_equal. exact Eu.
  - destruct IH as [-> | (-> & u & ->)];
      [left; reflexivity
      | right; split; [reflexivity | exists (x :: u); reflexivity]].
Qed.

Lemma file_lines_nil (s : str) : file_lines s = [] -> s = [].
Proof.
  destruct s as [|x s]; [reflexivity|]. simpl.
  destruct (is_char LF x); [discriminate|].
  destruct (file_lines s); discriminate.
Qed.

Lemma file_lines_first : forall (c rest : str),
  ~ In LF c -> file_lines (c ++ LF :: rest) = (c ++ [LF]) :: file_lines rest.
Proof.
  induction c as [|x c IH]; intros rest H; simpl.
  - reflexivity.
  - assert (E : is_char LF x = false).
    { destruct (is_char LF x) eqn:E; [|reflexivity].
      apply is_char_eq in E. subst. simpl in H. tauto. }
    rewrite E, IH by (simpl in H; tauto). reflexivity.
Qed.

Lemma file_lines_app_lf : forall (p q : str),
  file_lines (p ++ LF :: q) = file_lines (p ++ [LF]) ++ file_lines q.
Proof.
  induction p as [|x p IH]; intros q; [reflexivity|].
  simpl. destruct (is_char LF x); rewrite IH; [reflexivity|].
  destruct (file_lines (p ++ [LF])) eqn:E; [|reflexivity].
  apply file_lines_nil in E. destruct p; discriminate.
Qed.

Lemma parse_line_blank (d : dict EnvEntry) : parse_line d [LF] = d.
Proof. reflexivity. Qed.

Lemma parse_line_chomp (d : dict EnvEntry) (c : str) :
  parse_line d (c ++ [LF]) = parse_line d c.
Proof. unfold parse_line. rewrite rstrip_app by reflexivity. reflexivity. Qed.

(** A line feed at the end of the text changes nothing. *)
Lemma fold_lines_snoc_lf : forall (u c : str) (d : dict EnvEntry),
  ~ In LF c ->
  fold_left parse_line (file_lines (c ++ u ++ [LF])) d
  = fold_left parse_line (file_lines (c ++ u)) d.
Proof.
  induction u as [|x u IH]; intros c d Hc.
  - simpl. rewrite app_nil_r, file_lines_first by assumption. simpl.
    rewrite parse_line_chomp. destruct c as [|y c]; [reflexivity|].
    destruct (file_lines_one (y :: c)) as [-> _]; [discriminate | assumption |].
    reflexivity.
  - destruct (is_char LF x) eqn:E.
    + apply is_char_eq in E. subst x.
      change ((LF :: u) ++ [LF]) with (LF :: (u ++ [LF])).
      rewrite (file_lines_first c (u ++ [LF])), (file_lines_first c u)
        by assumption.
      simpl. apply (IH [] _ (fun H => H)).
    + replace (c ++ (x :: u) ++ [LF]) with ((c ++ [x]) ++ u ++ [LF])
        by (rewrite <- app_assoc; reflexivity).
      replace (c ++ x :: u) with ((c ++ [x]) ++ u)
        by (rewrite <- app_assoc; reflexivity).
      apply IH. intros H. apply in_app_or in H. destruct H as [H|[H|[]]];
        [tauto | apply not_lf in E; congruence].
Qed.

Lemma parse_text_snoc_lf (text : str) :
  parse_text (text ++ [LF]) = parse_text text.
Proof.
  unfold parse_text.
  destruct (universal_newlines_snoc_lf text) as [-> | [-> _]]; [|reflexivity].
  apply (fold_lines_snoc_lf (universal_newlines text) [] [] (fun H => H)).
Qed.

Lemma parse_line_keeps_keys (d : dict EnvEntry) (line : str) :
  exists extra, dict_keys (parse_line d line) = dict_keys d ++ extra.
Proof.
  unfold parse_line.
  destruct (py_strip _); [exists []; symmetry; apply app_nil_r|].
  destruct (startswith _ _); [exists []; symmetry; apply app_nil_r|].
  destruct (re_match _ _); [|exists []; symmetry; apply app_nil_r].
  rewrite dict_keys_set. destruct (dict_mem _ d); eauto.
  exists []; symmetry; apply app_nil_r.
Qed.

Lemma fold_lines_keeps_keys : forall (ls : list str) (d : dict EnvEntry),
  exists extra, dict_keys (fold_left parse_line ls d) = dict_keys d ++ extra.
Proof.
  induction ls as [|l ls IH]; intros d; simpl.
  - exists []. symmetry. apply app_nil_r.
  - destruct (IH (parse_line d l)) as [e2 ->].
    destruct (parse_line_keeps_keys d l) as [e1 ->].
    exists (e1 ++ e2). rewrite app_assoc. reflexivity.
Qed.

Lemma parse_text_after_lf (old more : str) :
  parse_text (old ++ LF :: more)
  = fold_left parse_line (file_lines (universal_newlines more)) (parse_text old).
Proof.
  rewrite <- (parse_text_snoc_lf old). unfold parse_text.
  rewrite universal_newlines_app_lf.
  assert (exists u, universal_newlines (old ++ [LF]) = u ++ [LF]) as [u ->].
  { destruct (universal_newlines_snoc_lf old) as [-> | (-> & u & ->)]; eauto. }
  rewrite <- app_assoc. simpl. rewrite file_lines_app_lf, fold_left_app.
  reflexivity.
Qed.

(** X4. Parsing goes line by line: a text, a line feed and more text parse as
    the lines of the second text on top of the map of the first.  So
    whatever is appended after a line feed keeps the keys the file had, in
    their order, and new keys come after them. *)
Theorem parse_text_append (old more : str) :
  parse_text (old ++ LF :: more)
  = fold_left parse_line (file_lines (universal_newlines more)) (parse_text old)
  /\ exists extra,
       dict_keys (parse_text (old ++ LF :: more))
       = dict_keys (parse_text old) ++ extra.
Proof.
  split; [apply parse_text_after_lf|].
  rewrite parse_text_after_lf. apply fold_lines_keeps_keys.
Qed.

Example appended_lines_example :
  parse_text ("B=1
A=2" ++ LF :: "# Added by Henvdall
C=3
A=4
")
  = [ ("B" : str, mkEnvEntry "B" "1" None);
      ("A" : str, mkEnvEntry "A" "4" None);
      ("C" : str, mkEnvEntry "C" "3" None) ].
Proof. vm_compute. reflexivity. Qed.

(** * Further properties of the validator *)

(** ** Hints taken from comments *)

Lemma word_lower_not_space c : is_word c = true -> is_space (lower_char c) = false.
Proof. by_char c. Qed.

Lemma py_strip_plain (s : str) :
  forallb (fun c => negb (is_space c)) s = true -> py_strip s = s.
Proof.
  intros H. unfold py_strip. rewrite lstrip_id.
  - apply rstrip_none, H.
  - destruct s as [|x s]; [exact I|]. simpl in H.
    apply andb_true_iff in H. destruct H as [H _].
    apply negb_true_iff, H.
Qed.

(** What [extract_validation_type] returns is a word: not empty, and word
    characters only. *)
Lemma extracted_hint_is_word (comment : option str) (w : str) :
  extract_validation_type comment = Some w ->
  w <> [] /\ forallb is_word w = true.
Proof.
  unfold extract_validation_type. destruct comment as [[|x c]|]; try discriminate.
  destruct (re_search HINT_PATTERN (x :: c)) as [m|] eqn:Hs; [|discriminate].
  intros Hm. apply search_from_first in Hs.
  destruct Hs as (pre & t & post & _ & M & _).
  apply matches_hint in M. destruct M as (w0 & (_ & Hn & Hw) & ->).
  unfold set_group in Hm. simpl in Hm. injection Hm as <-. auto.
Qed.

(** X5. With a hint taken from a comment, white space plays no part: the
    lower-cased word decides, "int" for integers, "url" for URLs, and any
    other word accepts every value. *)
Theorem validate_value_by_extracted_hint
    (urlparse : str -> str + (str * str)) (comment : option str) (w v : str) :
  extract_validation_type comment = Some w ->
  validate_value urlparse v (extract_validation_type comment)
  = if str_eqb (py_lower w) "int" then validate_int v
    else if str_eqb (py_lower w) "url" then validate_url urlparse v
    else valid.
Proof.
  intros H. rewrite H. destruct (extracted_hint_is_word _ _ H) as [Hn Hw].
  unfold validate_value. destruct w as [|x t]; [congruence|].
  rewrite py_strip_plain; [reflexivity|].
  unfold py_lower. rewrite forallb_forall in *. intros c Hc.
  apply in_map_iff in Hc. destruct Hc as (c0 & <- & Hc0).
  apply negb_true_iff, word_lower_not_space, Hw, Hc0.
Qed.

Lemma validate_value_by_extracted_hint_witness :
  validate_value demo_urlparse "80a"
    (extract_validation_type (Some ("port (Int) of the server" : str)))
  = validate_int "80a".
Proof.
  apply (validate_value_by_extracted_hint demo_urlparse
           (Some ("port (Int) of the server" : str)) "Int" "80a").
  vm_compute. reflexivity.
Defined.

(** ** Integers between white space *)

Lemma strip_between p (a v b : str) :
  forallb p a = true -> forallb p b = true ->
  rstrip p (lstrip p (a ++ v ++ b)) = rstrip p (lstrip p v).
Proof.
  intros Ha Hb. rewrite lstrip_app by assumption.
  destruct (lstrip_split p v) as (a' & E & Ha').
  destruct (lstrip p v) as [|x s] eqn:L.
  - rewrite app_nil_r in E. subst a'.
    rewrite lstrip_none_left by (rewrite forallb_app, Ha', Hb; reflexivity).
    reflexivity.
  - pose proof (lstrip_head p v x s L) as Hx.
    rewrite E at 1. rewrite <- app_assoc, lstrip_app by assumption.
    change ((x :: s) ++ b) with (x :: (s ++ b)). cbn [lstrip]. rewrite Hx.
    exact (rstrip_app p b (x :: s) Hb).
Qed.

(** X6. The white space that [int] strips plays no part in [validate_int]:
    a value is accepted with it around exactly when it is accepted
    without. *)
Theorem validate_int_ignores_outer_space (a v b : str) :
  forallb int_space a = true -> forallb int_space b = true ->
  is_valid (validate_int (a ++ v ++ b)) = is_valid (validate_int v).
Proof.
  intros Ha Hb.
  assert (E : int_parses (a ++ v ++ b) = int_parses v)
    by (unfold int_parses; rewrite strip_between by assumption; reflexivity).
  unfold validate_int. rewrite E. destruct (int_parses v); reflexivity.
Qed.

Lemma validate_int_ignores_outer_space_witness :
  is_valid (validate_int ((" " ++ [TAB]) ++ "-42" ++ [LF]))
  = is_valid (validate_int "-42").
Proof.
  apply (validate_int_ignores_outer_space (" " ++ [TAB]) "-42" [LF]);
    reflexivity.
Defined.

(** ** Placeholder text inside a longer value *)

Lemma occurs_inside (P : str -> Prop) (a v b : str) :
  occurs P v -> occurs P (a ++ v ++ b).
Proof.
  intros (pre & w & post & -> & Pw). exists (a ++ pre), w, (post ++ b).
  rewrite <- !app_assoc. auto.
Qed.

(** X7. The six case-insensitive patterns are searched anywhere in the value:
    when one of them is found in a text, every value that holds the text is
    a placeholder. *)
Theorem placeholder_text_flags_every_value_around (a v b : str) :
  existsb (fun pattern => found (re_search pattern v))
    (firstn 6 PLACEHOLDER_PATTERNS) = true ->
  is_placeholder (a ++ v ++ b) = true.
Proof.
  intros H.
  assert (F : existsb (fun pattern => found (re_search pattern (a ++ v ++ b)))
                PLACEHOLDER_PATTERNS = true).
  { apply placeholder_patterns_found.
    unfold PLACEHOLDER_PATTERNS in H. cbn [firstn existsb] in H.
    rewrite !orb_true_iff in H.
    rewrite (search_occurs _ your_here v) in H by apply matches_your_here.
    rewrite (search_occurs _ (same_letters "placeholder") v) in H
      by (intros; apply matches_lit_i).
    rewrite (search_occurs _ (two_words "change" "me") v) in H
      by (intros; apply matches_two_words).
    rewrite (search_occurs _ (two_words "replace" "this") v) in H
      by (intros; apply matches_two_words).
    rewrite (search_occurs _ (same_letters "todo") v) in H
      by (intros; apply matches_lit_i).
    rewrite search_xxx in H.
    destruct H as [H|[H|[H|[H|[H|[H|H]]]]]]; [| | | | | |discriminate];
      apply (occurs_inside _ a v b) in H; auto 8. }
  unfold is_placeholder. destruct (py_strip (a ++ v ++ b)); [reflexivity | exact F].
Qed.

Lemma placeholder_text_flags_every_value_around_witness :
  is_placeholder ("my_" ++ "ToDo" ++ "_list") = true.
Proof.
  apply (placeholder_text_flags_every_value_around "my_" "ToDo" "_list").
  vm_compute. reflexivity.
Defined.

(** * Further properties of sync *)

(** ** A line that starts with a key and an equals sign

    Whatever follows on the line, a comment or not, the line pattern takes
    it and the key is set. *)

Lemma split_at_hash (t : str) :
  In "#"%char t ->
  exists t1 t2, t = t1 ++ "#"%char :: t2 /\ ~ In "#"%char t1.
Proof.
  induction t as [|x t IH]; simpl; [tauto|]. intros H.
  destruct (is_char "#" x) eqn:E.
  - apply is_char_eq in E. subst x. exists [], t. auto.
  - assert (Hx : x <> "#"%char) by (intros ->; discriminate E).
    destruct H as [H|H]; [congruence|].
    destruct (IH H) as (t1 & t2 & -> & Hn). exists (x :: t1), t2.
    split; [reflexivity|]. intros [Hi|Hi]; [congruence | tauto].
Qed.

Lemma env_line_key_matches (k t : str) :
  is_identifier k = true -> ~ In LF t ->
  found (re_match ENV_LINE_PATTERN (k ++ "=" ++ t)) = true.
Proof.
  intros Hk Hlf.
  destruct (in_dec ascii_dec "#"%char t) as [Hin|Hout];
    [|apply env_line_of_entry_matches; assumption].
  destruct (split_at_hash t Hin) as (t1 & t2 & -> & Hh).
  destruct (is_identifier_chars _ Hk) as (k0 & kt & -> & Hk0 & Hkc).
  simpl in Hkc. apply andb_true_iff in Hkc. destruct Hkc as [_ Hkt].
  assert (Hv : forallb not_hash t1 = true) by (apply no_char_forall, Hh).
  assert (Hc : forallb dot t2 = true).
  { apply dot_forall. intros Hi. apply Hlf, in_or_app. right. right. exact Hi. }
  replace ((k0 :: kt) ++ "=" ++ t1 ++ "#"%char :: t2)
    with (([] ++ [] ++ ([k0] ++ kt) ++ [] ++ ["="%char] ++ [] ++ t1
           ++ ([] ++ ["#"%char] ++ [] ++ t2) ++ []) ++ [])
    by (simpl; rewrite !app_nil_r; reflexivity).
  eapply re_match_complete.
  unfold ENV_LINE_PATTERN, star, star_lazy.
  repeat (eapply M_Cat || eapply M_Grp || eapply M_Bos || eapply M_Opt_taken
          || (eapply M_Chr; solve [assumption | reflexivity])
          || (eapply M_Rep; [solve [assumption | reflexivity] | simpl; lia])
          || (eapply M_Eos; reflexivity)).
Qed.

Lemma env_line_key (k t : str) m :
  is_identifier k = true ->
  re_match ENV_LINE_PATTERN (k ++ "=" ++ t) = Some m -> m 1 = Some k.
Proof.
  intros Hk Hm.
  destruct (is_identifier_chars _ Hk) as (k0 & kt & Ek & Hk0 & Hkc).
  apply re_match_sound in Hm. destruct Hm as (w & rest & E & M).
  apply env_line_inv in M.
  destruct M as (ws1 & k' & ws2 & ws3 & v' & tail & _ & -> & Hws1 & Hk' & Hws2
                 & _ & _ & _ & G1 & _).
  destruct (is_identifier_chars _ Hk') as (k0' & kt' & Ek' & _ & Hkc').
  destruct ws1 as [|s ws1].
  2:{ exfalso. rewrite Ek in E. simpl in E. injection E as <- _.
      simpl in Hws1. apply andb_true_iff in Hws1. destruct Hws1 as [Hs _].
      apply ident_start_char, ident_char_plain in Hk0. destruct Hk0. congruence. }
  simpl in E. repeat (rewrite <- app_assoc in E; simpl in E).
  destruct ws2 as [|s ws2]; simpl in E.
  - destruct (run_unique ident_char k k' _ _ _ _ Hkc Hkc'
                (proj1 (proj2 equals_plain)) (proj1 (proj2 equals_plain)) E)
      as (-> & _ & _). exact G1.
  - exfalso. simpl in Hws2. apply andb_true_iff in Hws2. destruct Hws2 as [Hs _].
    destruct (run_unique ident_char k k' _ _ _ _ Hkc Hkc'
                (proj1 (proj2 equals_plain)) (space_not_ident _ Hs) E)
      as (_ & <- & _).
    destruct equals_plain. congruence.
Qed.

Lemma parse_line_sets_key (d : dict EnvEntry) (k t line : str) :
  is_identifier k = true -> ~ In LF t ->
  line = k ++ "=" ++ t \/ line = (k ++ "=" ++ t) ++ [LF] ->
  exists e, parse_line d line = dict_set k e d.
Proof.
  intros Hk Hlf Hline. unfold parse_line.
  rewrite (chomp_assignment k t line Hk Hlf Hline).
  destruct (assignment_not_skipped k t Hk) as (x & s & -> & ->).
  pose proof (env_line_key_matches k t Hk Hlf) as F.
  destruct (re_match ENV_LINE_PATTERN (k ++ "=" ++ t)) as [m|] eqn:Hm;
    [|discriminate].
  unfold group. rewrite (env_line_key k t m Hk Hm). eexists. reflexivity.
Qed.

Lemma dict_mem_set {V : Type} (k : str) (v : V) (d : dict V) :
  dict_mem k (dict_set k v d) = true.
Proof.
  apply dict_mem_In. rewrite dict_keys_set.
  destruct (dict_mem k d) eqn:E.
  - apply dict_mem_In, E.
  - apply in_or_app. right. left. reflexivity.
Qed.

Lemma fold_lines_keeps_mem (ls : list str) (d : dict EnvEntry) (k : str) :
  dict_mem k d = true -> dict_mem k (fold_left parse_line ls d) = true.
Proof.
  intros H. apply dict_mem_In. destruct (fold_lines_keeps_keys ls d) as [extra ->].
  apply in_or_app. left. apply dict_mem_In, H.
Qed.

Lemma universal_newlines_plain : forall (a s : str),
  forallb (fun c => negb (is_char CR c)) a = true ->
  universal_newlines (a ++ s) = a ++ universal_newlines s.
Proof.
  induction a as [|x a IH]; intros s H; [reflexivity|].
  simpl in H. apply andb_true_iff in H. destruct H as [Hx Ha].
  apply negb_true_iff in Hx.
  change ((x :: a) ++ s) with (x :: (a ++ s)).
  rewrite universal_newlines_cons, Hx, IH by assumption. reflexivity.
Qed.

Lemma first_line : forall s : str,
  exists c, ~ In LF c /\ (s = c \/ exists rest, s = c ++ LF :: rest).
Proof.
  induction s as [|x s (c & Hc & IH)].
  - exists []. split; [intros []|]. left. reflexivity.
  - destruct (is_char LF x) eqn:E.
    + apply is_char_eq in E. subst x. exists []. split; [intros []|].
      right. exists s. reflexivity.
    + apply not_lf in E. exists (x :: c). split.
      * intros [H|H]; [congruence | tauto].
      * destruct IH as [-> | (rest & ->)]; [left | right; exists rest];
          reflexivity.
Qed.

Lemma key_prefix_plain (k : str) :
  is_identifier k = true ->
  forallb (fun c => negb (is_char CR c)) (k ++ "=") = true.
Proof.
  intros Hk. destruct (is_identifier_chars _ Hk) as (k0 & kt & _ & _ & Hkc).
  rewrite forallb_app. apply andb_true_iff. split; [|reflexivity].
  rewrite forallb_forall in *. intros c Hc. apply Hkc, ident_char_plain in Hc.
  destruct Hc as (_ & _ & _ & _ & ->). reflexivity.
Qed.

(** In a text that starts with a key and an equals sign, the key is set,
    whatever comes after and whatever was parsed before. *)
Lemma key_line_parsed (d : dict EnvEntry) (k r : str) :
  is_identifier k = true ->
  dict_mem k (fold_left parse_line
                (file_lines (universal_newlines (k ++ "=" ++ r))) d) = true.
Proof.
  intros Hk.
  assert (U : universal_newlines (k ++ "=" ++ r)
              = k ++ "=" ++ universal_newlines r).
  { rewrite app_assoc, universal_newlines_plain by (apply key_prefix_plain, Hk).
    rewrite <- app_assoc. reflexivity. }
  rewrite U.
  destruct (first_line (universal_newlines r)) as (c & Hc & [E | (rest & E)]);
    rewrite E.
  - assert (N : ~ In LF (k ++ "=" ++ c))
      by (apply no_char_forall, no_lf_line; assumption).
    destruct (file_lines_one (k ++ "=" ++ c)) as [F _]; [|exact N|].
    { destruct (is_identifier_chars _ Hk) as (k0 & kt & -> & _). discriminate. }
    rewrite F. cbn [fold_left].
    destruct (parse_line_sets_key d k c _ Hk Hc (or_introl eq_refl)) as [e ->].
    apply dict_mem_set.
  - assert (N : ~ In LF (k ++ "=" ++ c))
      by (apply no_char_forall, no_lf_line; assumption).
    replace (k ++ "=" ++ c ++ LF :: rest) with ((k ++ "=" ++ c) ++ LF :: rest)
      by (rewrite <- !app_assoc; reflexivity).
    rewrite file_lines_first by exact N. cbn [fold_left].
    apply fold_lines_keeps_mem.
    destruct (parse_line_sets_key d k c _ Hk Hc (or_intror eq_refl)) as [e ->].
    apply dict_mem_set.
Qed.

(** ** The text that sync appends, read back *)

Lemma fold_lines_after_lf (d : dict EnvEntry) (old more : str) :
  fold_left parse_line (file_lines (universal_newlines (old ++ LF :: more))) d
  = fold_left parse_line (file_lines (universal_newlines more))
      (fold_left parse_line (file_lines (universal_newlines (old ++ [LF]))) d).
Proof.
  rewrite universal_newlines_app_lf.
  assert (exists u, universal_newlines (old ++ [LF]) = u ++ [LF]) as [u ->].
  { destruct (universal_newlines_snoc_lf old) as [-> | (-> & u & ->)]; eauto. }
  rewrite <- app_assoc. simpl. rewrite file_lines_app_lf, fold_left_app.
  reflexivity.
Qed.

Lemma format_entry_starts (k v : str) :
  exists t, format_entry k v = k ++ "=" ++ t.
Proof. unfold format_entry. destruct (needs_quoting v); eauto. Qed.

Lemma entry_lines_parsed : forall (es : dict str) (d : dict EnvEntry) (k : str),
  Forall (fun kv => is_identifier (fst kv) = true) es ->
  In k (dict_keys es) ->
  dict_mem k
    (fold_left parse_line
       (file_lines
          (universal_newlines
             (List.concat
                (map (fun kv => format_entry (fst kv) (snd kv) ++ [LF]) es))))
       d) = true.
Proof.
  induction es as [|[k0 v0] es IH]; intros d k Hid Hin; [destruct Hin|].
  inversion Hid as [|? ? Hk0 Hes]; subst. cbn [fst] in Hk0.
  cbn [map List.concat fst snd].
  destruct (format_entry_starts k0 v0) as [t ->].
  destruct Hin as [Hin|Hin].
  - cbn [fst] in Hin. subst k0. rewrite <- !app_assoc. apply key_line_parsed, Hk0.
  - rewrite <- app_assoc. cbn [app]. rewrite fold_lines_after_lf.
    apply IH; assumption.
Qed.

(** Every key that the file had, and every key that was added, is a key of
    the file as it is read back. *)
Lemma appended_file_parsed (old : str) (es : dict str) (k : str) :
  Forall (fun kv => is_identifier (fst kv) = true) es ->
  dict_mem k (parse_text old) = true \/ In k (dict_keys es) ->
  dict_mem k (parse_text (old ++ appended_text old es)) = true.
Proof.
  intros Hid H. unfold appended_text.
  set (C := List.concat _).
  destruct old as [|x o].
  - change (dict_mem k (parse_text ("# Added by Henvdall" ++ LF :: C)) = true).
    rewrite parse_text_after_lf.
    destruct H as [H|H]; [discriminate H|].
    apply entry_lines_parsed; assumption.
  - change (dict_mem k (parse_text ((x :: o) ++ LF
                                    :: "# Added by Henvdall" ++ LF :: C)) = true).
    rewrite parse_text_after_lf, fold_lines_after_lf.
    destruct H as [H|H].
    + apply fold_lines_keeps_mem, fold_lines_keeps_mem, H.
    + apply entry_lines_parsed; assumption.
Qed.


Lemma missing_keys_distinct (example_entries env_entries : option str) :
  NoDup (find_missing_keys (parse_file example_entries) (parse_file env_entries)).
Proof. apply NoDup_filter, parse_file_wf. Qed.

Lemma missing_keys_known (example_entries env_entries : dict EnvEntry) (k : str) :
  In k (find_missing_keys example_entries env_entries) ->
  dict_mem k example_entries = true.
Proof.
  unfold find_missing_keys. intros H. apply filter_In in H.
  apply dict_mem_In. tauto.
Qed.

Lemma missing_keys_identifiers (example_entries : option str)
    (env_entries : dict EnvEntry) (k : str) :
  In k (find_missing_keys (parse_file example_entries) env_entries) ->
  is_identifier k = true.
Proof.
  unfold find_missing_keys. intros H. apply filter_In in H. destruct H as [H _].
  unfold dict_keys in H. apply in_map_iff in H. destruct H as ([k' e] & <- & H).
  pose proof (parse_file_keyed example_entries) as F.
  rewrite Forall_forall in F. apply (F _ H).
Qed.

Section SyncRuns.

Variable renders : output -> bool.

Variable urlparse : str -> str + (str * str).

(** ** One prompt *)

Lemma prompt_loop_first_valid prompt_text validation_type (good : str)
    (rest : list str) :
  renders (OutPrompt prompt_text) = true ->
  is_valid (validate_value urlparse good validation_type) = true ->
  forall (bad : list str) (w : world),
    forallb (fun v =>
               negb (is_valid (validate_value urlparse v validation_type))
               && renders (OutInvalid
                             (error_message
                                (validate_value urlparse v validation_type))))
      bad = true ->
    exists shown,
      prompt_loop renders urlparse prompt_text validation_type
        (bad ++ good :: rest) w
      = (Returned good, mkWorld (files w) rest (console w ++ shown))
      /\ Forall (fun v => In (OutInvalid
                               (error_message
                                  (validate_value urlparse v validation_type)))
                            shown) bad.
Proof.
  intros Hshown Hgood. induction bad as [|b bad IH]; intros w Hbad.
  - exists [OutPrompt prompt_text]. cbn [app prompt_loop].
    rewrite Hshown, Hgood. split; [reflexivity|]. constructor.
  - cbn [forallb] in Hbad. apply andb_true_iff in Hbad.
    destruct Hbad as [Hb Hbad]. apply andb_true_iff in Hb.
    destruct Hb as [Hb Hmsg]. apply negb_true_iff in Hb.
    cbn [app prompt_loop]. rewrite Hshown, Hb, Hmsg. cbn [negb].
    destruct (IH (mkWorld (files w) (bad ++ good :: rest)
                    ((console w ++ [OutPrompt prompt_text])
                     ++ [OutInvalid
                           (error_message
                              (validate_value urlparse b validation_type))]))
                 Hbad) as (shown & -> & Hall).
    exists (OutPrompt prompt_text
            :: OutInvalid (error_message
                             (validate_value urlparse b validation_type))
            :: shown).
    split.
    + cbn [files console]. rewrite <- !app_assoc. reflexivity.
    + constructor; [right; left; reflexivity|].
      rewrite Forall_forall in *. intros v Hv. right. right. apply Hall, Hv.
Qed.

(** X8. With a prompt that can be shown, [_prompt_for_value] asks again
    after each answer that fails the validation and whose error message can
    be shown, showing that message, and returns the first answer that
    passes; the answers after it are left for the next question and no file
    is touched. *)
Theorem prompt_for_value_returns_first_valid
    (key example_value : str) (validation_type : option str)
    (bad : list str) (good : str) (rest : list str) (w : world) :
  answers w = bad ++ good :: rest ->
  renders (OutPrompt (prompt_text_of key example_value validation_type))
  = true ->
  forallb (fun v =>
             negb (is_valid (validate_value urlparse v validation_type))
             && renders (OutInvalid
                           (error_message
                              (validate_value urlparse v validation_type))))
    bad = true ->
  is_valid (validate_value urlparse good validation_type) = true ->
  exists w',
    prompt_for_value renders urlparse key example_value validation_type w
    = (Returned good, w')
    /\ answers w' = rest /\ files w' = files w
    /\ Forall (fun v => In (OutInvalid
                             (error_message
                                (validate_value urlparse v validation_type)))
                          (console w')) bad.
Proof.
  intros Ha Hshown Hbad Hgood. unfold prompt_for_value. rewrite Ha.
  destruct (prompt_loop_first_valid _ validation_type good rest Hshown Hgood
              bad w Hbad) as (shown & E & Hall).
  eexists. split; [exact E|]. cbn [answers files console].
  repeat split. rewrite Forall_forall in *. intros v Hv.
  apply in_or_app. right. apply Hall, Hv.
Qed.

(** ** Collecting the values *)

Lemma collect_loop_keys example_entries : forall missing_keys acc w res w',
  collect_loop renders urlparse missing_keys example_entries acc w
  = (Returned res, w') ->
  NoDup (dict_keys acc ++ missing_keys) ->
  dict_keys res = dict_keys acc ++ missing_keys.
Proof.
  induction missing_keys as [|key keys IH]; intros acc w res w' H N; simpl in H.
  - injection H as <- <-. rewrite app_nil_r. reflexivity.
  - run_step H as e w1 E. run_step H as v w2 E2.
    assert (M : dict_mem key acc = false).
    { destruct (dict_mem key acc) eqn:M; [|reflexivity]. apply dict_mem_In in M.
      apply NoDup_remove_2 in N. exfalso. apply N, in_or_app. left. exact M. }
    apply IH in H.
    + rewrite H, dict_keys_set, M, <- app_assoc. reflexivity.
    + rewrite dict_keys_set, M, <- app_assoc. exact N.
Qed.

(** A prompt fails on a text that cannot be shown, and on nothing else. *)
Lemma prompt_loop_raised prompt_text validation_type : forall pending w e,
  fst (prompt_loop renders urlparse prompt_text validation_type pending w)
  = Raised e ->
  e = "MarkupError".
Proof.
  induction pending as [|a pending IH]; intros w e H; cbn [prompt_loop] in H;
    destruct (renders (OutPrompt prompt_text)); cbn [negb fst] in H;
    try discriminate; try (injection H as <-; reflexivity).
  destruct (is_valid _); [discriminate|].
  destruct (renders (OutInvalid _)); cbn [negb fst] in H.
  - eapply IH, H.
  - injection H as <-. reflexivity.
Qed.

(** The keys that are asked for are keys of the template, so no look-up
    fails. *)
Lemma collect_loop_raised example_entries : forall missing_keys acc w e,
  (forall k, In k missing_keys -> dict_mem k example_entries = true) ->
  fst (collect_loop renders urlparse missing_keys example_entries acc w)
  = Raised e ->
  e = "MarkupError".
Proof.
  induction missing_keys as [|key keys IH]; intros acc w e Hin H.
  - discriminate H.
  - pose proof (Hin key (or_introl eq_refl)) as Hk. unfold dict_mem in Hk.
    cbn [collect_loop] in H. unfold lookup in H.
    destruct (dict_get key example_entries) as [entry|]; [|discriminate].
    erewrite bind_run in H by reflexivity.
    apply bind_raised in H. destruct H as [H | (v & w1 & _ & H)].
    + unfold prompt_for_value in H. eapply prompt_loop_raised, H.
    + eapply IH; [|exact H]. intros k Hk'. apply Hin. right. exact Hk'.
Qed.



End SyncRuns.

Lemma prompt_for_value_returns_first_valid_witness :
  exists w',
    prompt_for_value demo_renders demo_urlparse "PORT" "3000" (Some ("int" : str))
      (demo_world ["abc" : str; "8080" : str; "next" : str])
    = (Returned ("8080" : str), w')
    /\ answers w' = ["next" : str]
    /\ files w' = files (demo_world ["abc" : str; "8080" : str; "next" : str])
    /\ Forall (fun v => In (OutInvalid
                             (error_message
                                (validate_value demo_urlparse v
                                   (Some ("int" : str)))))
                          (console w')) ["abc" : str].
Proof.
  apply (prompt_for_value_returns_first_valid demo_renders demo_urlparse
           "PORT" "3000"
           (Some ("int" : str)) ["abc" : str] "8080" ["next" : str]
           (demo_world ["abc" : str; "8080" : str; "next" : str]));
    reflexivity.
Defined.

(** ** The runs of sync *)

Lemma filter_none {A : Type} (f : A -> bool) (l : list A) :
  (forall x, In x l -> f x = false) -> filter f l = [].
Proof.
  induction l as [|x l IH]; intros H; simpl; [reflexivity|].
  rewrite (H x (or_introl eq_refl)). apply IH. intros y Hy. apply H. right. exact Hy.
Qed.

Lemma with_suffix_differs (p : str) (x : ascii) (s : str) : p ++ x :: s <> p.
Proof.
  intros E. apply (f_equal (@List.length ascii)) in E.
  rewrite length_app in E. simpl in E. lia.
Qed.

Tactic Notation "raised_step" hyp(H) "as" ident(a) ident(w) ident(E) :=
  apply bind_raised in H; destruct H as [H | (a & w & E & H)].

Section SyncOutcomes.

Variable renders : output -> bool.

Variable urlparse : str -> str + (str * str).

(** A run of [sync] that returns with changes made: the values were
    collected for the missing keys, one each in their order, and the files
    are the former ones but for the backup and the text appended. *)
Lemma sync_completed (example_path env_path : str) (backup_path : option str)
    (w w' : world) :
  sync renders urlparse example_path env_path backup_path w
  = (Returned true, w') ->
  exists new_entries,
    dict_keys new_entries
    = find_missing_keys (parse_file (files w example_path))
                        (parse_file (files w env_path))
    /\ forall p,
         files w' p
         = if str_eqb p env_path then
             Some (match files w env_path with Some c => c | None => [] end
                   ++ appended_text
                        match files w env_path with Some c => c | None => [] end
                        new_entries)
           else
             match files w env_path with
             | Some content =>
                 if str_eqb p match backup_path with
                              | None => env_path ++ ".bak"
                              | Some q => q
                              end
                 then Some content else files w p
             | None => files w p
             end.
Proof.
  intros H.
  destruct (sync_returned_true _ _ _ _ _ _ _ H)
    as (new_entries & w3 & w4 & F3 & E4 & F5).
  pose proof (collect_loop_keys renders urlparse _ _ _ _ _ _ E4) as K.
  cbn [dict_keys map app] in K. specialize (K (missing_keys_distinct _ _)).
  apply collect_loop_valid in E4; [|intros k v []]. destruct E4 as [_ F4].
  exists new_entries. split; [exact K|].
  intros p. rewrite F5, F4, (F3 env_path), backup_keeps_env.
  destruct (str_eqb p env_path); [reflexivity | apply F3].
Qed.

(** X9. After a run of [sync] that made changes, the lines written after the
    marker are those of the missing keys of the template, one line each, in
    the order of the template. *)
Theorem sync_adds_each_missing_key_once
    (example_path env_path : str) (backup_path : option str) (w w' : world) :
  sync renders urlparse example_path env_path backup_path w
  = (Returned true, w') ->
  exists new_entries,
    dict_keys new_entries
    = find_missing_keys (parse_file (files w example_path))
                        (parse_file (files w env_path))
    /\ NoDup (dict_keys new_entries)
    /\ let old := match files w env_path with Some c => c | None => [] end in
       files w' env_path = Some (old ++ appended_text old new_entries).
Proof.
  intros H. destruct (sync_completed _ _ _ _ _ H) as (new_entries & K & F).
  exists new_entries. split; [exact K|]. split.
  - rewrite K. apply missing_keys_distinct.
  - cbv zeta. rewrite F, str_eqb_refl. reflexivity.
Qed.

(** X10. After a run of [sync] that made changes, the backup holds what the
    file held before, and no other file than the file itself and the backup
    has changed; when the file was not there, no backup is written. *)
Theorem sync_backup_and_other_files
    (example_path env_path : str) (backup_path : option str) (w w' : world) :
  sync renders urlparse example_path env_path backup_path w
  = (Returned true, w') ->
  backup_path <> Some env_path ->
  let backup :=
    match backup_path with
    | None => env_path ++ ".bak"
    | Some p => p
    end in
  match files w env_path with
  | Some content =>
      files w' backup = Some content
      /\ forall p, p <> env_path -> p <> backup -> files w' p = files w p
  | None => forall p, p <> env_path -> files w' p = files w p
  end.
Proof.
  intros H Hb backup.
  destruct (sync_completed _ _ _ _ _ H) as (new_entries & _ & F).
  fold backup in F.
  assert (Hne : backup <> env_path).
  { unfold backup. destruct backup_path as [q|]; [congruence|].
    apply with_suffix_differs. }
  destruct (files w env_path) as [content|].
  - split.
    + rewrite F. apply str_eqb_neq in Hne. rewrite Hne, str_eqb_refl. reflexivity.
    + intros p Hp Hpb. rewrite F. apply str_eqb_neq in Hp, Hpb.
      rewrite Hp, Hpb. reflexivity.
  - intros p Hp. rewrite F. apply str_eqb_neq in Hp. rewrite Hp. reflexivity.
Qed.

(** X11. After a run of [sync] that made changes, no key of the template is
    missing from the file: a second run finds nothing to do. *)
Theorem sync_leaves_nothing_missing
    (example_path env_path : str) (backup_path : option str) (w w' : world) :
  sync renders urlparse example_path env_path backup_path w
  = (Returned true, w') ->
  find_missing_keys (parse_file (files w example_path))
                    (parse_file (files w' env_path)) = [].
Proof.
  intros H. destruct (sync_completed _ _ _ _ _ H) as (new_entries & K & F).
  rewrite F, str_eqb_refl. cbn [parse_file].
  unfold find_missing_keys. apply filter_none. intros k Hk.
  apply negb_false_iff, appended_file_parsed.
  - rewrite Forall_forall. intros [k' v'] Hin. cbn [fst].
    apply (missing_keys_identifiers (files w example_path)
             (parse_file (files w env_path))).
    rewrite <- K. unfold dict_keys. apply in_map_iff. exists (k', v'). auto.
  - destruct (dict_mem k (parse_file (files w env_path))) eqn:M.
    + left. destruct (files w env_path); [exact M | discriminate M].
    + right. rewrite K. unfold find_missing_keys. apply filter_In.
      rewrite M. auto.
Qed.

(** *** Runs that go through *)


Lemma collect_values_unfold keys (example_entries : dict EnvEntry) (w : world) :
  collect_values renders urlparse keys example_entries w
  = collect_loop renders urlparse keys example_entries []
      (mkWorld (files w) (answers w)
         ((console w ++ [OutInputPanel]) ++ [OutBlank])).
Proof.
  unfold collect_values.
  erewrite bind_run by (apply print_run; left; reflexivity).
  erewrite bind_run by (apply print_run; left; reflexivity).
  reflexivity.
Qed.


(** *** Runs that fail *)

Lemma display_missing_keys_raised keys (example_entries : dict EnvEntry)
    (w : world) (e : str) :
  (forall k, In k keys -> dict_mem k example_entries = true) ->
  fst (display_missing_keys renders keys example_entries w) = Raised e ->
  e = "MarkupError".
Proof.
  intros Hin H. unfold display_missing_keys in H.
  destruct (missing_rows_run example_entries w keys Hin) as [rows R].
  erewrite bind_run in H by exact R.
  raised_step H as u1 w1 E1; [eapply print_raised, H|].
  raised_step H as u2 w2 E2; [eapply print_raised, H|].
  eapply print_raised, H.
Qed.

Lemma create_backup_raised (env_path : str) (backup_path : option str)
    (w : world) (e : str) :
  fst (create_backup renders env_path backup_path w) = Raised e ->
  e = "MarkupError" \/ e = "SameFileError".
Proof.
  unfold create_backup. intros H.
  erewrite bind_run in H by (unfold read_path; reflexivity).
  destruct (files w env_path) as [content|]; [|discriminate H].
  destruct (str_eqb _ env_path).
  - right. injection H as <-. reflexivity.
  - left. erewrite bind_run in H by (unfold write_path; reflexivity).
    eapply print_raised, H.
Qed.

(** The errors that a run of [sync] can end with, in a world where the
    operating system does not fail: a text that rich cannot read, and a
    backup over the file itself. *)
Lemma sync_raised (example_path env_path : str) (backup_path : option str)
    (w : world) (e : str) :
  fst (sync renders urlparse example_path env_path backup_path w) = Raised e ->
  e = "MarkupError" \/ e = "SameFileError".
Proof.
  unfold sync. intros H.
  erewrite bind_run in H by (unfold path_exists; reflexivity).
  destruct (files w example_path) as [example|] eqn:Hex; cbn [negb] in H.
  2:{ raised_step H as u w0 E; [left; eapply print_raised, H | discriminate H]. }
  erewrite bind_run in H by apply parse_path_run.
  erewrite bind_run in H by apply parse_path_run.
  rewrite Hex in H.
  destruct (find_missing_keys _ _) as [|m ms] eqn:Hmiss.
  { raised_step H as u w0 E; [left; eapply print_raised, H | discriminate H]. }
  assert (Known : forall k, In k (m :: ms) ->
                    dict_mem k (parse_file (Some example)) = true).
  { intros k Hk. rewrite <- Hmiss in Hk. eapply missing_keys_known, Hk. }
  raised_step H as u1 w1 E1;
    [left; eapply display_missing_keys_raised; [exact Known | exact H]|].
  raised_step H as confirmed w2 E2.
  { unfold confirm_sync, bind, ask, ret in H. cbn [holds_text andb] in H.
    destruct (answers w1); discriminate H. }
  destruct confirmed; cbn [negb] in H.
  2:{ raised_step H as u w0 E; [left; eapply print_raised, H | discriminate H]. }
  raised_step H as u3 w3 E3; [eapply create_backup_raised, H|].
  raised_step H as new_entries w4 E4.
  { left. rewrite collect_values_unfold in H.
    eapply collect_loop_raised; [exact Known | exact H]. }
  destruct (sync_finish renders env_path new_entries w4) as (w' & E' & _).
  rewrite E' in H. discriminate H.
Qed.

(** X13. The keys that [sync] looks up in the template are keys of the
    template: no run ends with a [KeyError]. *)
Theorem sync_never_raises_key_error
    (example_path env_path : str) (backup_path : option str) (w : world) :
  fst (sync renders urlparse example_path env_path backup_path w)
  <> Raised "KeyError".
Proof.
  intros H. apply sync_raised in H. destruct H as [H|H]; discriminate H.
Qed.

End SyncOutcomes.

Lemma sync_adds_each_missing_key_once_witness :
  exists new_entries,
    dict_keys new_entries
    = find_missing_keys
        (parse_file (files (demo_world ["y" : str; "8080" : str]) ".env.example"))
        (parse_file (files (demo_world ["y" : str; "8080" : str]) ".env"))
    /\ NoDup (dict_keys new_entries)
    /\ let old :=
         match files (demo_world ["y" : str; "8080" : str]) ".env" with
         | Some c => c
         | None => []
         end in
       files (snd (sync demo_renders demo_urlparse ".env.example" ".env" None
                     (demo_world ["y" : str; "8080" : str]))) ".env"
       = Some (old ++ appended_text old new_entries).
Proof.
  apply (sync_adds_each_missing_key_once demo_renders demo_urlparse
           ".env.example" ".env"
           None (demo_world ["y" : str; "8080" : str])).
  vm_compute. reflexivity.
Defined.

Lemma sync_backup_and_other_files_witness :
  files (snd (sync demo_renders demo_urlparse ".env.example" ".env" None
                (demo_world ["y" : str; "8080" : str]))) (".env" ++ ".bak")
  = Some ("NAME=me
" : str)
  /\ forall p, p <> (".env" : str) -> p <> ".env" ++ ".bak" ->
       files (snd (sync demo_renders demo_urlparse ".env.example" ".env" None
                     (demo_world ["y" : str; "8080" : str]))) p
       = files (demo_world ["y" : str; "8080" : str]) p.
Proof.
  apply (sync_backup_and_other_files demo_renders demo_urlparse
           ".env.example" ".env" None
           (demo_world ["y" : str; "8080" : str])).
  - vm_compute. reflexivity.
  - discriminate.
Defined.

Lemma sync_leaves_nothing_missing_witness :
  find_missing_keys
    (parse_file (files (demo_world ["y" : str; "8080" : str]) ".env.example"))
    (parse_file
       (files (snd (sync demo_renders demo_urlparse ".env.example" ".env" None
                      (demo_world ["y" : str; "8080" : str]))) ".env"))
  = [].
Proof.
  apply (sync_leaves_nothing_missing demo_renders demo_urlparse
           ".env.example" ".env" None
           (demo_world ["y" : str; "8080" : str])).
  vm_compute. reflexivity.
Defined.


(** * Further properties of audit *)

Lemma issue_keys (entries : dict EnvEntry) :
  map (fun issue => fst (fst issue)) (find_placeholder_values entries)
  = dict_keys (filter (fun kv => is_placeholder (value (snd kv))) entries).
Proof.
  induction entries as [|[k e] entries IH]; [reflexivity|].
  cbn [find_placeholder_values filter snd].
  destruct (is_placeholder (value e)); [|exact IH].
  cbn [map fst dict_keys]. f_equal. exact IH.
Qed.

Lemma no_issue_iff (entries : dict EnvEntry) :
  find_placeholder_values entries = []
  <-> existsb (fun kv => is_placeholder (value (snd kv))) entries = false.
Proof.
  induction entries as [|[k e] entries IH]; [split; reflexivity|].
  cbn [find_placeholder_values existsb snd].
  destruct (is_placeholder (value e)); [split; discriminate|].
  exact IH.
Qed.

Lemma dict_get_first {V : Type} (k : str) (v : V) (d : dict V) :
  dict_get k ((k, v) :: d) = Some v.
Proof. simpl. rewrite str_eqb_refl. reflexivity. Qed.

Lemma dict_get_later {V : Type} (k k' : str) (v : V) (d : dict V) :
  k' <> k -> dict_get k ((k', v) :: d) = dict_get k d.
Proof. intros H. simpl. apply str_eqb_neq in H. rewrite H. reflexivity. Qed.

(** With distinct keys, choosing entries by their value is choosing keys by
    the value they map to. *)
Lemma filter_by_value (p : EnvEntry -> bool) : forall entries : dict EnvEntry,
  NoDup (dict_keys entries) ->
  dict_keys (filter (fun kv => p (snd kv)) entries)
  = filter (fun k => match dict_get k entries with
                     | Some e => p e
                     | None => false
                     end) (dict_keys entries).
Proof.
  induction entries as [|[k e] entries IH]; intros N; [reflexivity|].
  inversion N as [|? ? Hk N']; subst.
  cbn [filter dict_keys map fst snd]. rewrite dict_get_first.
  assert (E : filter (fun k0 => match dict_get k0 ((k, e) :: entries) with
                                | Some e0 => p e0
                                | None => false
                                end) (map fst entries)
              = filter (fun k0 => match dict_get k0 entries with
                                  | Some e0 => p e0
                                  | None => false
                                  end) (map fst entries)).
  { apply filter_ext_in. intros k0 Hk0. rewrite dict_get_later; [reflexivity|].
    intros ->. exact (Hk Hk0). }
  rewrite E. destruct (p e).
  - cbn [map fst]. f_equal. apply IH, N'.
  - apply IH, N'.
Qed.

Section AuditRuns.

Variable renders : output -> bool.

(** X14. [audit] only reads: however it ends, every file and every pending
    answer is as before.  It returns "issues found" exactly when the file
    is there and one of its parsed values is a placeholder, or it stops
    with the error of a text that cannot be shown; and it does return when
    the one text in which it puts data (the path of a file that is not
    there, the table of the issues when there are some) can be shown. *)
Theorem audit_only_reads (env_path : str) (w : world) :
  files (snd (audit renders env_path w)) = files w
  /\ answers (snd (audit renders env_path w)) = answers w
  /\ (fst (audit renders env_path w)
      = Returned (existsb (fun kv => is_placeholder (value (snd kv)))
                    (parse_file (files w env_path)))
      \/ fst (audit renders env_path w) = Raised "MarkupError")
  /\ ((files w env_path = None -> renders (OutEnvNotFound env_path) = true) ->
      (find_placeholder_values (parse_file (files w env_path)) <> [] ->
       renders (OutIssues
                  (issue_rows
                     (find_placeholder_values (parse_file (files w env_path)))))
       = true) ->
      fst (audit renders env_path w)
      = Returned (existsb (fun kv => is_placeholder (value (snd kv)))
                    (parse_file (files w env_path)))).
Proof.
  unfold audit. erewrite bind_run by (unfold path_exists; reflexivity).
  destruct (files w env_path) as [text|] eqn:Hf; cbn [negb].
  2:{ unfold bind, print, ret. cbn [holds_text andb parse_file existsb].
      destruct (renders (OutEnvNotFound env_path));
        cbn [negb fst snd files answers].
      - repeat split; auto.
      - split; [reflexivity|]. split; [reflexivity|].
        split; [right; reflexivity|].
        intros H _. specialize (H eq_refl). discriminate H. }
  erewrite bind_run by apply parse_path_run. rewrite Hf. cbn [parse_file].
  destruct (parse_text text) as [|entry entries] eqn:Hp.
  { unfold bind, print, ret.
    cbn [holds_text andb existsb fst snd files answers]. repeat split; auto. }
  rewrite <- Hp.
  destruct (find_placeholder_values (parse_text text)) as [|issue issues] eqn:Hi.
  - apply no_issue_iff in Hi. rewrite Hi. unfold bind, print, ret.
    cbn [holds_text andb fst snd files answers]. repeat split; auto.
  - assert (Hy : existsb (fun kv => is_placeholder (value (snd kv)))
                   (parse_text text) = true).
    { destruct (existsb _ (parse_text text)) eqn:X; [reflexivity|].
      apply no_issue_iff in X. congruence. }
    rewrite Hy. unfold display_issues, bind, print, ret.
    cbn [holds_text andb].
    destruct (renders (OutIssues (issue_rows (issue :: issues))));
      cbn [negb fst snd files answers].
    + repeat split; auto.
    + split; [reflexivity|]. split; [reflexivity|].
      split; [right; reflexivity|].
      intros _ H. discriminate H. discriminate.
Qed.

End AuditRuns.

(** X15. The issues of a file come one for each key whose value is a
    placeholder, in the order of the keys in the file, and no key comes
    twice. *)
Theorem audit_issues_follow_the_file (file : option str) :
  map (fun issue => fst (fst issue)) (find_placeholder_values (parse_file file))
  = filter (fun k => match dict_get k (parse_file file) with
                     | Some e => is_placeholder (value e)
                     | None => false
                     end) (dict_keys (parse_file file))
  /\ NoDup (map (fun issue => fst (fst issue))
              (find_placeholder_values (parse_file file))).
Proof.
  assert (E : map (fun issue => fst (fst issue))
                (find_placeholder_values (parse_file file))
              = filter (fun k => match dict_get k (parse_file file) with
                                 | Some e => is_placeholder (value e)
                                 | None => false
                                 end) (dict_keys (parse_file file))).
  { rewrite issue_keys.
    apply (filter_by_value (fun e => is_placeholder (value e))), parse_file_wf. }
  split; [exact E|]. rewrite E. apply NoDup_filter, parse_file_wf.
Qed.

(** * A key that is assigned again *)

Lemma dict_get_set {V : Type} (k : str) (v : V) (d : dict V) :
  dict_get k (dict_set k v d) = Some v.
Proof.
  induction d as [|[k' v'] d IH]; simpl.
  - rewrite str_eqb_refl. reflexivity.
  - destruct (str_eqb k' k) eqn:E; simpl; rewrite E; [reflexivity | exact IH].
Qed.

Lemma dict_get_set_other {V : Type} (k k0 : str) (v : V) (d : dict V) :
  k0 <> k -> dict_get k (dict_set k0 v d) = dict_get k d.
Proof.
  intros H. apply str_eqb_neq in H.
  induction d as [|[k' v'] d IH]; simpl.
  - rewrite H. reflexivity.
  - destruct (str_eqb k' k0) eqn:E; simpl.
    + apply str_eqb_eq in E. subst k'. rewrite H. reflexivity.
    + rewrite IH. reflexivity.
Qed.

(** X16. The last assignment of a key wins: after a last line "key=text" the key
    maps to the text, stripped and unquoted, whatever the lines before
    assigned to it; the key keeps the place of its first assignment, and
    every other key keeps its entry. *)
Theorem last_assignment_wins (old k t : str) :
  is_identifier k = true ->
  ~ In "#"%char t -> ~ In LF t -> ~ In CR t ->
  dict_get k (parse_text (old ++ LF :: k ++ "=" ++ t))
  = Some (mkEnvEntry k (unquote_value (py_strip t)) None)
  /\ dict_keys (parse_text (old ++ LF :: k ++ "=" ++ t))
     = (if dict_mem k (parse_text old) then dict_keys (parse_text old)
        else dict_keys (parse_text old) ++ [k])
  /\ forall k', k' <> k ->
       dict_get k' (parse_text (old ++ LF :: k ++ "=" ++ t))
       = dict_get k' (parse_text old).
Proof.
  intros Hk Hhash Hlf Hcr. rewrite parse_text_after_lf.
  assert (Nlf : ~ In LF (k ++ "=" ++ t))
    by (apply no_char_forall, no_lf_line; assumption).
  assert (Ncr : ~ In CR (k ++ "=" ++ t)).
  { apply no_char_forall. rewrite app_assoc, forallb_app.
    rewrite (key_prefix_plain k Hk). apply no_char_forall, Hcr. }
  rewrite universal_newlines_none by exact Ncr.
  destruct (file_lines_one (k ++ "=" ++ t)) as [F _]; [|exact Nlf|].
  { destruct (is_identifier_chars _ Hk) as (k0 & kt & -> & _). discriminate. }
  rewrite F. cbn [fold_left].
  rewrite (parse_line_assignment (parse_text old) k t _ Hk Hhash Hlf
             (or_introl eq_refl)).
  split; [apply dict_get_set|]. split; [apply dict_keys_set|].
  intros k' Hk'. apply dict_get_set_other. congruence.
Qed.

Lemma last_assignment_wins_witness :
  dict_get "PORT" (parse_text ("PORT=80
NAME=x" ++ LF :: "PORT" ++ "=" ++ " '8080' "))
  = Some (mkEnvEntry "PORT" (unquote_value (py_strip " '8080' ")) None)
  /\ dict_keys (parse_text ("PORT=80
NAME=x" ++ LF :: "PORT" ++ "=" ++ " '8080' "))
     = (if dict_mem "PORT" (parse_text "PORT=80
NAME=x")
        then dict_keys (parse_text "PORT=80
NAME=x")
        else dict_keys (parse_text "PORT=80
NAME=x") ++ ["PORT" : str])
  /\ forall k', k' <> ("PORT" : str) ->
       dict_get k' (parse_text ("PORT=80
NAME=x" ++ LF :: "PORT" ++ "=" ++ " '8080' "))
       = dict_get k' (parse_text "PORT=80
NAME=x").
Proof.
  apply (last_assignment_wins "PORT=80
NAME=x" "PORT" " '8080' ").
  - reflexivity.
  - intros H. vm_compute in H. intuition discriminate.
  - intros H. vm_compute in H. intuition discriminate.
  - intros H. vm_compute in H. intuition discriminate.
Defined.
